(** * Verification of the chunker and the query path of the RAG pipeline

    Shallow embedding of
    - [src/document_processor.py]: [chunk_text], [load_pdf], [load_docx],
      [load_document], [process_document];
    - [src/search_index.py]: [search], [index_documents],
      [get_index_stats];
    - [src/azure_openai.py]: [get_embedding], [get_embeddings_batch],
      [chat_completion], [chat_completion_stream];
    - [src/blob_storage.py]: [get_container_client], [delete_file];
    - [src/config.py]: [AppConfig.validate];
    - [src/pipeline.py]: [RAGPipeline.query], [RAGPipeline.query_stream],
      [RAGPipeline.search_only], [RAGPipeline.stats].

    Python [str] values are lists of characters.  Characters are code
    points below 256 ([ascii]); on that range Python's notion of
    whitespace ([str.isspace], used by [str.strip] and by [\s] in [re])
    is the set 9-13, 28-32, 133 and 160.  Python integers are [Z]. *)

From Stdlib Require Import Ascii String List ZArith Lia Bool Arith.
From Stdlib Require Import DecimalString DecimalZ Sorted.
Import ListNotations.

Local Open Scope Z_scope.

(** ** Python string primitives *)

Module Py.

Definition str := list ascii.

(** A string literal. *)
Definition lit (s : string) : str := list_ascii_of_string s.

(** [len(s)] *)
Definition len (s : str) : Z := Z.of_nat (length s).

(** Truthiness of a string: [bool(s)]. *)
Definition truthy (s : str) : bool :=
  match s with [] => false | _ :: _ => true end.

(** [c.isspace()] for a code point below 256. *)
Definition is_space (c : ascii) : bool :=
  let n := N_of_ascii c in
  (((9 <=? n) && (n <=? 13)) || ((28 <=? n) && (n <=? 32))
   || (n =? 133) || (n =? 160))%N.

Fixpoint lstrip (s : str) : str :=
  match s with
  | [] => []
  | c :: r => if is_space c then lstrip r else s
  end.

Definition rstrip (s : str) : str := rev (lstrip (rev s)).

(** [s.strip()] *)
Definition strip (s : str) : str := rstrip (lstrip s).

(** [s[-k:]] for [k > 0]: the last [k] characters, the whole string when
    it has fewer. *)
Definition tail_slice (k : Z) (s : str) : str :=
  skipn (length s - Z.to_nat k) s.

Definition newline : ascii := ascii_of_nat 10.

Definition is_newline (c : ascii) : bool := Ascii.eqb c newline.

(** The paragraph break ["\n\n"]. *)
Definition nn : str := [newline; newline].

(** Puts a character in front of the first field of a split. *)
Definition cons_head (c : ascii) (l : list str) : list str :=
  match l with
  | [] => [[c]]
  | h :: t => (c :: h) :: t
  end.

(** [s.split("\n\n")]: the fields between the non-overlapping occurrences
    of the separator, found from the left. *)
Fixpoint split_nn (s : str) : list str :=
  match s with
  | [] => [[]]
  | c1 :: r =>
      match r with
      | c2 :: r' =>
          if is_newline c1 && is_newline c2 then [] :: split_nn r'
          else cons_head c1 (split_nn r)
      | [] => [[c1]]
      end
  end.

(** The class [[.!?]]. *)
Definition is_terminal (c : ascii) : bool :=
  Ascii.eqb c "."%char || Ascii.eqb c "!"%char || Ascii.eqb c "?"%char.

(** Scanner state of [re.split(r'(?<=[.!?])\s+', s)]: [AfterTerminal]
    when the previous character is in [[.!?]] (the lookbehind holds),
    [InGap] while the greedy [\s+] of a match is being consumed, [Plain]
    otherwise. *)
Inductive scan := Plain | AfterTerminal | InGap.

Definition scan_of (c : ascii) : scan :=
  if is_terminal c then AfterTerminal else Plain.

(** The fields of [re.split(r'(?<=[.!?])\s+', s)], scanning [s] in state
    [st].  A match starts at a whitespace character that follows a
    terminal character and extends over the whole whitespace run. *)
Fixpoint re_split_from (st : scan) (s : str) : list str :=
  match s with
  | [] => [[]]
  | c :: r =>
      match st with
      | InGap =>
          if is_space c then re_split_from InGap r
          else cons_head c (re_split_from (scan_of c) r)
      | AfterTerminal =>
          if is_space c then [] :: re_split_from InGap r
          else cons_head c (re_split_from (scan_of c) r)
      | Plain => cons_head c (re_split_from (scan_of c) r)
      end
  end.

Definition re_split_sentences (s : str) : list str := re_split_from Plain s.

End Py.

Import Py.

(** ** [chunk_text] *)

Module Chunker.

(** Step 1: [[p.strip() for p in text.split("\n\n") if p.strip()]]. *)
Definition paragraphs (text : str) : list str :=
  map strip (filter (fun p => truthy (strip p)) (split_nn text)).

(** Step 2: the body of the loop over the paragraphs. *)
Definition pieces_of (chunk_size : Z) (para : str) : list str :=
  if len para >? chunk_size then re_split_sentences para else [para].

Definition pieces (text : str) (chunk_size : Z) : list str :=
  flat_map (pieces_of chunk_size) (paragraphs text).

(** Step 3: one iteration of the merge loop over the state
    [(chunks, current_chunk)]. *)
Definition merge_step (chunk_size chunk_overlap : Z)
    (st : list str * str) (piece : str) : list str * str :=
  let '(chunks, current_chunk) := st in
  if (len current_chunk + len piece >? chunk_size) && truthy current_chunk
  then
    (chunks ++ [strip current_chunk],
     if chunk_overlap >? 0
     then tail_slice chunk_overlap current_chunk ++ nn ++ piece
     else piece)
  else
    (chunks,
     if truthy current_chunk then current_chunk ++ nn ++ piece else piece).

Definition merge (chunk_size chunk_overlap : Z) (ps : list str)
    : list str * str :=
  fold_left (merge_step chunk_size chunk_overlap) ps ([], []).

(** The last chunk: [if current_chunk.strip(): chunks.append(...)]. *)
Definition finish (st : list str * str) : list str :=
  let '(chunks, current_chunk) := st in
  if truthy (strip current_chunk) then chunks ++ [strip current_chunk]
  else chunks.

Definition chunk_text (text : str) (chunk_size chunk_overlap : Z)
    : list str :=
  if negb (truthy text) || negb (truthy (strip text)) then []
  else finish (merge chunk_size chunk_overlap (pieces text chunk_size)).

(** *** The loop, unfolded

    [next_buffer] is the value of [current_chunk] after one iteration,
    [flushed] the values of [current_chunk] at the appends inside the
    loop (before [strip]), [final] its value when the loop ends. *)

Definition flushes (chunk_size : Z) (current_chunk piece : str) : bool :=
  (len current_chunk + len piece >? chunk_size) && truthy current_chunk.

Definition next_buffer (chunk_size chunk_overlap : Z)
    (current_chunk piece : str) : str :=
  snd (merge_step chunk_size chunk_overlap ([], current_chunk) piece).

Fixpoint flushed (chunk_size chunk_overlap : Z) (ps : list str)
    (current_chunk : str) : list str :=
  match ps with
  | [] => []
  | p :: r =>
      let rest :=
        flushed chunk_size chunk_overlap r
          (next_buffer chunk_size chunk_overlap current_chunk p) in
      if flushes chunk_size current_chunk p then current_chunk :: rest
      else rest
  end.

Definition final (chunk_size chunk_overlap : Z) (ps : list str)
    (current_chunk : str) : str :=
  fold_left (next_buffer chunk_size chunk_overlap) ps current_chunk.

(** Every value [current_chunk] is appended with, the last one included. *)
Definition emit (chunk_size chunk_overlap : Z) (ps : list str)
    (current_chunk : str) : list str :=
  flushed chunk_size chunk_overlap ps current_chunk
    ++ [final chunk_size chunk_overlap ps current_chunk].

(** The buffers behind the chunks of [chunk_text]: [current_chunk] as it
    is at each [chunks.append(current_chunk.strip())]. *)
Definition chunk_buffers (text : str) (chunk_size chunk_overlap : Z)
    : list str :=
  if negb (truthy text) || negb (truthy (strip text)) then []
  else
    let ps := pieces text chunk_size in
    let last_buffer := final chunk_size chunk_overlap ps [] in
    flushed chunk_size chunk_overlap ps []
      ++ (if truthy (strip last_buffer) then [last_buffer] else []).

(** *** Reading the chunks back *)

(** The non-whitespace content of a string. *)
Definition nonws (s : str) : str := filter (fun c => negb (is_space c)) s.

(** The text a chunk hands over to its successor. *)
Definition overlap_of (chunk_overlap : Z) (chunk : str) : str :=
  if chunk_overlap >? 0 then tail_slice chunk_overlap chunk else [].

(** Concatenation of the non-whitespace content of the chunks, where
    each chunk first loses the [k] characters it repeats from its
    predecessor. *)
Fixpoint remove_overlaps (chunk_overlap : Z) (k : nat) (chunks : list str)
    : str :=
  match chunks with
  | [] => []
  | c :: r =>
      skipn k (nonws c)
        ++ remove_overlaps chunk_overlap
             (length (nonws (overlap_of chunk_overlap c))) r
  end.

Definition reconstruct (chunk_overlap : Z) (chunks : list str) : str :=
  remove_overlaps chunk_overlap 0 chunks.

(** First and last character are not whitespace. *)
Definition starts_solid (s : str) : bool :=
  match s with
  | [] => false
  | c :: _ => negb (is_space c)
  end.

Definition ends_solid (s : str) : bool := starts_solid (rev s).

Definition trimmed (s : str) : bool := starts_solid s && ends_solid s.

(** What the merge loop makes of a buffer, given the buffer emitted
    before it: a piece on its own, or the overlap of the previous
    buffer, a paragraph break and a piece, or a buffer to which a piece
    was added after the size test. *)
Definition buffer_shape (chunk_size chunk_overlap : Z) (all_pieces : list str)
    (previous : option str) (b : str) : Prop :=
  In b all_pieces
  \/ (0 < chunk_overlap
      /\ exists prev p,
           previous = Some prev /\ In p all_pieces
           /\ b = tail_slice chunk_overlap prev ++ nn ++ p)
  \/ (exists b0 p,
        b0 <> [] /\ In p all_pieces /\ b = b0 ++ nn ++ p
        /\ len b0 + len p <= chunk_size).

(** [P] holds of every element of a list, given its predecessor. *)
Fixpoint chained (P : option str -> str -> Prop) (previous : option str)
    (l : list str) : Prop :=
  match l with
  | [] => True
  | b :: r => P previous b /\ chained P (Some b) r
  end.

(** *** Inputs of the scenarios *)

Definition three_paragraphs : str :=
  lit "Para one." ++ nn ++ lit "Para two." ++ nn ++ lit "Para three.".

(** The text of the example in the docstring of [chunk_text]. *)
Definition docstring_paragraphs : str :=
  lit "Paragraph 1." ++ nn ++ lit "Paragraph 2." ++ nn ++ lit "Paragraph 3.".

Definition hello_world : str := lit "Hello" ++ nn ++ lit "world".

Definition blank_run : str :=
  lit "a          b" ++ nn ++ lit "c" ++ nn ++ lit "d".

End Chunker.

Import Chunker.

(** ** Chunk ids of [process_document] *)

Module Ids.

(** [str(n)] for an integer. *)
Definition str_of_int (n : Z) : str :=
  lit (NilEmpty.string_of_int (Z.to_int n)).

(** [f"{source}:{page}:{chunk_counter}:{chunk_text_content[:100]}"] *)
Definition hash_input (source : str) (page chunk_counter : Z)
    (chunk_text_content : str) : str :=
  source ++ lit ":" ++ str_of_int page ++ lit ":"
    ++ str_of_int chunk_counter ++ lit ":"
    ++ firstn 100 chunk_text_content.

(** The dicts appended to [all_chunks]. *)
Record chunk := {
  id : str;
  content : str;
  source : str;
  page : Z;
  chunk_index : Z
}.

(** The dicts returned by [load_document]. *)
Record doc_part := {
  part_text : str;
  part_source : str;
  part_page : Z
}.

Section Digest.

(** [hashlib.md5(s.encode()).hexdigest()], a library function. *)
Variable md5_hexdigest : str -> str.

Definition chunk_id (source : str) (page chunk_counter : Z)
    (chunk_text_content : str) : str :=
  firstn 16
    (md5_hexdigest (hash_input source page chunk_counter chunk_text_content)).

(** The inner loop body of [process_document] over the state
    [(all_chunks, chunk_counter)]. *)
Definition add_chunk (source : str) (page : Z) (st : list chunk * Z)
    (chunk_text_content : str) : list chunk * Z :=
  let '(all_chunks, chunk_counter) := st in
  (all_chunks
     ++ [{| id := chunk_id source page chunk_counter chunk_text_content;
            content := chunk_text_content;
            source := source;
            page := page;
            chunk_index := chunk_counter |}],
   chunk_counter + 1).

Definition process_part (chunk_size chunk_overlap : Z)
    (st : list chunk * Z) (part : doc_part) : list chunk * Z :=
  fold_left (add_chunk (part_source part) (part_page part))
    (chunk_text (part_text part) chunk_size chunk_overlap) st.

(** [process_document] once the file is loaded into [doc_parts]. *)
Definition process_parts (doc_parts : list doc_part)
    (chunk_size chunk_overlap : Z) : list chunk :=
  fst (fold_left (process_part chunk_size chunk_overlap) doc_parts ([], 0)).

End Digest.



End Ids.

(** ** External services and the operations that call them

    An operation runs against a [world], which answers each call to an
    external service with a value or an exception, given the events so
    far.  Running an operation gives its outcome and the events it
    caused: the calls it made, with their answers, and the tokens it
    yielded.  Console output is not modelled. *)

Module Services.

(** IEEE doubles are only passed through: scores and embeddings. *)
Definition float := Z.

Inductive exn := Exn (type_name message : str).

Inductive outcome (A : Type) : Type :=
| Returned (a : A)
| Raised (e : exn).

Arguments Returned {A} a.
Arguments Raised {A} e.

(** A document of the index as a search returns it; [page] may be
    missing ([result.get("page", 0)]). *)
Record hit := {
  hit_id : str;
  hit_content : str;
  hit_source : str;
  hit_page : option Z;
  hit_score : float
}.

(** The dicts built by [search]. *)
Record search_result := {
  result_id : str;
  result_content : str;
  result_source : str;
  result_page : Z;
  result_score : float
}.

(** The dicts uploaded by [index_documents]. *)
Record document := {
  doc_id : str;
  doc_content : str;
  doc_source : str;
  doc_page : Z;
  doc_chunk_index : Z;
  content_vector : list float
}.

Record index_statistics := {
  document_count : Z;
  storage_size : Z
}.

(** A chunk of a streamed completion: [choices[k].delta.content]. *)
Record stream_chunk := { choices : list (option str) }.

(** A blob as [container.list_blobs()] describes it; [last_modified] is
    already the text [str(blob.last_modified)]. *)
Record blob_properties := {
  blob_name : str;
  blob_size : Z;
  blob_last_modified : str
}.

(** The calls to the four external services.  A streamed completion
    answers with the chunks that arrive and the failure, if any, that
    ends the stream. *)
Inductive call : Type -> Type :=
| embeddings_create (input : str) : call (list float)
| embeddings_create_batch (input : list str) : call (list (list float))
| search_client_search (search_text : str) (vector : list float)
    (k_nearest_neighbors top : Z) (filter : option str) : call (list hit)
| upload_documents (batch : list document) : call (list bool)
| get_index_statistics : call index_statistics
| chat_completions_create (system_prompt user_message : str) : call str
| chat_completions_stream (system_prompt user_message : str)
    : call (list stream_chunk * option exn)
| container_exists : call bool
| create_container : call unit
| delete_blob (name : str) : call unit
| search_client_vector_search (vector : list float)
    (k_nearest_neighbors top : Z) : call (list hit)
| create_or_update_index (index_name : str) : call str
| index_client_delete_index (index_name : str) : call unit
| upload_blob (name : str) (data : str) : call unit
| list_blobs : call (list blob_properties)
| download_blob (name : str) : call unit
| readall (name : str) : call str.

Inductive event : Type :=
| Called {R : Type} (c : call R) (r : outcome R)
| Yielded (token : str).

Definition world := forall R : Type, list event -> call R -> outcome R.

(** An operation: from the world and the events so far to an outcome and
    the events caused. *)
Definition op (A : Type) : Type := world -> list event -> outcome A * list event.

Definition ret {A : Type} (a : A) : op A := fun _ _ => (Returned a, []).

Definition raise {A : Type} (e : exn) : op A := fun _ _ => (Raised e, []).

Definition bind {A B : Type} (m : op A) (f : A -> op B) : op B :=
  fun w h =>
    match m w h with
    | (Returned a, evs) =>
        let '(r, evs') := f a w (h ++ evs) in (r, evs ++ evs')
    | (Raised e, evs) => (Raised e, evs)
    end.

Definition invoke {R : Type} (c : call R) : op R :=
  fun w h => let r := w R h c in (r, [Called c r]).

(** [yield token] in a generator. *)
Definition yield (token : str) : op unit :=
  fun _ _ => (Returned tt, [Yielded token]).

(** [try: m except Exception: handler] *)
Definition try_except {A : Type} (m : op A) (handler : exn -> op A) : op A :=
  fun w h =>
    match m w h with
    | (Returned a, evs) => (Returned a, evs)
    | (Raised e, evs) =>
        let '(r, evs') := handler e w (h ++ evs) in (r, evs ++ evs')
    end.

Declare Scope op_scope.
Delimit Scope op_scope with op.
Notation "x <- m ;; k" := (bind m (fun x => k))
  (at level 100, m at next level, right associativity) : op_scope.
Notation "m ;;; k" := (bind m (fun _ => k))
  (at level 100, right associativity) : op_scope.
Local Open Scope op_scope.

(** [for x in l: body(x)] *)
Fixpoint for_each {A : Type} (l : list A) (body : A -> op unit) : op unit :=
  match l with
  | [] => ret tt
  | x :: r => body x ;;; for_each r body
  end.

(** [for x in l: acc = body(acc, x)] *)
Fixpoint for_fold {A S : Type} (l : list A) (acc : S)
    (body : S -> A -> op S) : op S :=
  match l with
  | [] => ret acc
  | x :: r => acc' <- body acc x ;; for_fold r acc' body
  end.

(** [sep.join(parts)] *)
Fixpoint join (sep : str) (parts : list str) : str :=
  match parts with
  | [] => []
  | [p] => p
  | p :: r => p ++ sep ++ join sep r
  end.

(** [[l[i:i + size] for i in range(0, len(l), size)]] *)
Fixpoint batches_from {A : Type} (fuel size : nat) (l : list A)
    : list (list A) :=
  match fuel, l with
  | O, _ | _, [] => []
  | S fuel', _ :: _ => firstn size l :: batches_from fuel' size (skipn size l)
  end.

Definition batches {A : Type} (size : nat) (l : list A) : list (list A) :=
  batches_from (length l) size l.

(** *** [azure_openai.py] *)

Definition get_embedding (text : str) : op (list float) :=
  invoke (embeddings_create text).

Definition get_embeddings_batch (texts : list str) : op (list (list float)) :=
  for_fold (batches 16 texts) []
    (fun all_embeddings batch =>
       data <- invoke (embeddings_create_batch batch) ;;
       ret (all_embeddings ++ data)).

Definition dquote : ascii := ascii_of_nat 34.

Definition chat_system_prompt : str :=
  lit "You are a helpful assistant that answers questions based on the provided context."
  ++ nn ++ lit "Rules:" ++ [newline]
  ++ lit "- ONLY use information from the context below to answer" ++ [newline]
  ++ lit "- If the context doesn't contain the answer, say " ++ [dquote]
  ++ lit "I don't have enough information to answer this." ++ [dquote]
  ++ [newline]
  ++ lit "- Be concise and direct" ++ [newline]
  ++ lit "- Cite which document/section the information comes from when possible".

Definition stream_system_prompt : str :=
  lit "You are a helpful assistant that answers questions based on the provided context."
  ++ [newline]
  ++ lit "Only use information from the context. If the context doesn't contain the answer, say so.".

Definition user_message (question context : str) : str :=
  lit "Context:" ++ [newline] ++ context ++ nn ++ lit "---" ++ nn
  ++ lit "Question: " ++ question ++ nn ++ lit "Answer:".

Definition chat_completion (question context : str)
    (system_prompt : option str) : op str :=
  let system_prompt :=
    match system_prompt with
    | None => chat_system_prompt
    | Some s => s
    end in
  invoke (chat_completions_create system_prompt
            (user_message question context)).

(** [if chunk.choices and chunk.choices[0].delta.content: yield ...] *)
Definition yield_content (chunk : stream_chunk) : op unit :=
  match choices chunk with
  | Some content :: _ => if truthy content then yield content else ret tt
  | _ => ret tt
  end.

Definition chat_completion_stream (question context : str)
    (system_prompt : option str) : op unit :=
  let system_prompt :=
    match system_prompt with
    | None => stream_system_prompt
    | Some s => s
    end in
  response <- invoke (chat_completions_stream system_prompt
                        (user_message question context)) ;;
  for_each (fst response) yield_content ;;;
  match snd response with
  | Some e => raise e
  | None => ret tt
  end.

(** *** [search_index.py] *)

Definition format_hit (result : hit) : search_result :=
  {| result_id := hit_id result;
     result_content := hit_content result;
     result_source := hit_source result;
     result_page := match hit_page result with Some p => p | None => 0 end;
     result_score := hit_score result |}.

Definition search (query : str) (top_k : Z) (source_filter : option str)
    : op (list search_result) :=
  query_embedding <- get_embedding query ;;
  let filter_expr :=
    match source_filter with
    | Some f =>
        if truthy f then Some (lit "source eq '" ++ f ++ lit "'") else None
    | None => None
    end in
  results <- invoke (search_client_search query query_embedding top_k top_k
                       filter_expr) ;;
  ret (map format_hit results).

Definition to_document (pair : Ids.chunk * list float) : document :=
  let '(chunk, embedding) := pair in
  {| doc_id := Ids.id chunk;
     doc_content := Ids.content chunk;
     doc_source := Ids.source chunk;
     doc_page := Ids.page chunk;
     doc_chunk_index := Ids.chunk_index chunk;
     content_vector := embedding |}.

Definition index_documents (chunks : list Ids.chunk) : op Z :=
  match chunks with
  | [] => ret 0
  | _ :: _ =>
      embeddings <- get_embeddings_batch (map Ids.content chunks) ;;
      let documents := map to_document (combine chunks embeddings) in
      for_fold (batches 1000 documents) 0
        (fun total_uploaded batch =>
           result <- invoke (upload_documents batch) ;;
           let succeeded := Z.of_nat (length (filter (fun r => r) result)) in
           ret (total_uploaded + succeeded))
  end.

(** [search_client.search(search_text=None, ...)] *)
Definition vector_search_only (query : str) (top_k : Z)
    : op (list search_result) :=
  query_embedding <- get_embedding query ;;
  results <- invoke (search_client_vector_search query_embedding top_k
                       top_k) ;;
  ret (map format_hit results).

(** [create_index] and [delete_index]; [index_name] is
    [config.search.index_name].  The result of [create_index] is the
    name of the index the service returns. *)
Definition create_index (index_name : str) : op str :=
  invoke (create_or_update_index index_name).

Definition delete_index (index_name : str) : op unit :=
  invoke (index_client_delete_index index_name).

(** The dict returned by [get_index_stats]. *)
Record index_stats := {
  stats_document_count : Z;
  storage_size_bytes : Z
}.

Definition get_index_stats : op index_stats :=
  try_except
    (stats <- invoke get_index_statistics ;;
     ret {| stats_document_count := document_count stats;
            storage_size_bytes := storage_size stats |})
    (fun _ => ret {| stats_document_count := 0; storage_size_bytes := 0 |}).

(** *** [blob_storage.py] *)

Definition get_container_client : op unit :=
  present <- invoke container_exists ;;
  if negb present then invoke create_container else ret tt.

Definition delete_file (blob_name : str) : op unit :=
  get_container_client ;;;
  invoke (delete_blob blob_name).

(** A path of the local file system as the code looks at it: its text,
    [path.name], [path.suffix.lower()], [path.exists()] and the bytes
    read from it. *)
Record file_entry := {
  entry_path : str;
  entry_name : str;
  entry_suffix : str;
  entry_exists : bool;
  entry_data : str
}.

(** A path that may be a directory, with [iterdir()] and
    [sorted(iterdir())]. *)
Record local_path := {
  as_entry : file_entry;
  is_dir : bool;
  iterdir : list file_entry;
  sorted_iterdir : list file_entry
}.

Definition FileNotFoundError (path : str) : exn :=
  Exn (lit "FileNotFoundError") (lit "File not found: " ++ path).

Definition ValueError (path : str) : exn :=
  Exn (lit "ValueError") (lit "Not a directory: " ++ path).

(** [s in {...}] for a set of strings. *)
Definition str_in (s : str) (l : list str) : bool :=
  existsb (fun x => if list_eq_dec ascii_dec s x then true else false) l.

Definition upload_file (path : file_entry) (blob_name_arg : option str)
    : op str :=
  if negb (entry_exists path) then raise (FileNotFoundError (entry_path path))
  else
    let blob_name :=
      match blob_name_arg with
      | None => entry_name path
      | Some b => b
      end in
    get_container_client ;;;
    invoke (upload_blob blob_name (entry_data path)) ;;;
    ret blob_name.

Definition upload_directory (local_dir : local_path) : op (list str) :=
  if negb (is_dir local_dir)
  then raise (ValueError (entry_path (as_entry local_dir)))
  else
    for_fold (iterdir local_dir) []
      (fun uploaded file_path =>
         if str_in (entry_suffix file_path)
              [lit ".pdf"; lit ".txt"; lit ".md"; lit ".docx";
               lit ".markdown"]
         then blob_name <- upload_file file_path None ;;
              ret (uploaded ++ [blob_name])
         else ret uploaded).

(** The dicts returned by [list_files]. *)
Record file_info := {
  info_name : str;
  info_size_kb : float;
  info_last_modified : str
}.

(** [round_kb size] stands for [round(size / 1024, 1)]. *)
Definition list_files (round_kb : Z -> float) : op (list file_info) :=
  get_container_client ;;;
  blobs <- invoke list_blobs ;;
  ret (map (fun blob => {| info_name := blob_name blob;
                           info_size_kb := round_kb (blob_size blob);
                           info_last_modified := blob_last_modified blob |})
         blobs).

(** [download_file] returns the local path; the bytes written to it are
    returned with it. *)
Definition download_file (name local_path : str) : op (str * str) :=
  get_container_client ;;;
  invoke (download_blob name) ;;;
  data <- invoke (readall name) ;;
  ret (local_path, data).

(** *** [pipeline.py] *)

Record RAGResult := {
  question : str;
  answer : str;
  sources : list search_result
}.

Record RAGPipeline := { top_k : Z }.

(** [top_k or self.top_k] *)
Definition chosen_top_k (self : RAGPipeline) (top_k_arg : option Z) : Z :=
  match top_k_arg with
  | Some k => if k =? 0 then top_k self else k
  | None => top_k self
  end.

Definition no_information_found : str :=
  lit "I couldn't find any relevant information in the indexed documents.".

Definition no_information_found_stream : str :=
  lit "I couldn't find any relevant information.".

Definition context_separator : str := nn ++ lit "---" ++ nn.

Definition context_part (r : search_result) : str :=
  let source_info := lit "[Source: " ++ result_source r in
  let source_info :=
    if result_page r =? 0 then source_info
    else source_info ++ lit ", Page " ++ Ids.str_of_int (result_page r) in
  let source_info := source_info ++ lit "]" in
  source_info ++ [newline] ++ result_content r.

Definition query (self : RAGPipeline) (question : str)
    (top_k_arg : option Z) : op RAGResult :=
  let k := chosen_top_k self top_k_arg in
  results <- search question k None ;;
  match results with
  | [] =>
      ret {| question := question;
             answer := no_information_found;
             sources := [] |}
  | _ :: _ =>
      let context := join context_separator (map context_part results) in
      answer <- chat_completion question context None ;;
      ret {| question := question; answer := answer; sources := results |}
  end.

Definition context_part_stream (r : search_result) : str :=
  (lit "[Source: " ++ result_source r ++ lit "]")
    ++ [newline] ++ result_content r.

Definition query_stream (self : RAGPipeline) (question : str)
    (top_k_arg : option Z) : op unit :=
  let k := chosen_top_k self top_k_arg in
  results <- search question k None ;;
  match results with
  | [] => yield no_information_found_stream
  | _ :: _ =>
      let context :=
        join context_separator (map context_part_stream results) in
      chat_completion_stream question context None
  end.

Definition search_only (self : RAGPipeline) (query : str) (top_k : Z)
    : op (list search_result) :=
  search query top_k None.

(** The part of the dict returned by [RAGPipeline.stats] that comes from
    the index; the other entries are configuration values. *)
Definition stats (self : RAGPipeline) : op (Z * Z) :=
  index_stats <- get_index_stats ;;
  ret (stats_document_count index_stats, storage_size_bytes index_stats).

(** *** Reading the events *)

(** The failure that ends a streamed completion. *)
Definition stream_failure {R : Type} (c : call R) : R -> option exn :=
  match c in call T return T -> option exn with
  | chat_completions_stream _ _ => fun response => snd response
  | _ => fun _ => None
  end.

(** The failure of an external service an event records, if any. *)
Definition failure_of (ev : event) : option exn :=
  match ev with
  | Called c (Raised e) => Some e
  | Called c (Returned v) => stream_failure c v
  | Yielded _ => None
  end.

Fixpoint failures (evs : list event) : list exn :=
  match evs with
  | [] => []
  | ev :: r =>
      match failure_of ev with
      | Some e => e :: failures r
      | None => failures r
      end
  end.

(** A call to the Generation Client. *)
Definition is_generation_call (ev : event) : bool :=
  match ev with
  | Called (chat_completions_create _ _) _ => true
  | Called (chat_completions_stream _ _) _ => true
  | _ => false
  end.

Definition generation_calls (evs : list event) : list event :=
  filter is_generation_call evs.

Fixpoint yielded (evs : list event) : list str :=
  match evs with
  | [] => []
  | Yielded token :: r => token :: yielded r
  | Called _ _ :: r => yielded r
  end.

(** An operation lets the failures of the services through: it returns
    only when no call failed, and when a call failed it raises that very
    exception, the only failure there was. *)
Definition propagates {A : Type} (m : op A) : Prop :=
  forall w h,
    match m w h with
    | (Returned _, evs) => failures evs = []
    | (Raised e, evs) => failures evs = [e]
    end.

(** An operation that swallows no failure of a service: it returns only
    when no call failed, and when it raises, either a call failed with
    that very exception and no other call failed, or no call failed at
    all and the exception is the operation's own. *)
Definition lets_through {A : Type} (m : op A) : Prop :=
  forall w h,
    match m w h with
    | (Returned _, evs) => failures evs = []
    | (Raised e, evs) => failures evs = [e] \/ failures evs = []
    end.

(** *** Two worlds *)

Definition service_unavailable : exn :=
  Exn (lit "HttpResponseError") (lit "Service Unavailable").

(** Every call fails. *)
Definition all_down : world := fun R _ _ => Raised service_unavailable.

(** The services answer, and the index holds nothing. *)
Definition empty_index : world :=
  fun R _ c =>
    match c in call T return outcome T with
    | embeddings_create _ => Returned [1; 2; 3]
    | embeddings_create_batch input => Returned (map (fun _ => [1; 2; 3]) input)
    | search_client_search _ _ _ _ _ => Returned []
    | upload_documents batch => Returned (map (fun _ => true) batch)
    | get_index_statistics =>
        Returned {| document_count := 0; storage_size := 0 |}
    | chat_completions_create _ _ => Returned (lit "made up")
    | chat_completions_stream _ _ =>
        Returned ([{| choices := [Some (lit "made up")] |}], None)
    | container_exists => Returned true
    | create_container => Returned tt
    | delete_blob _ => Returned tt
    | search_client_vector_search _ _ _ => Returned []
    | create_or_update_index index_name => Returned index_name
    | index_client_delete_index _ => Returned tt
    | upload_blob _ _ => Returned tt
    | list_blobs => Returned []
    | download_blob _ => Returned tt
    | readall _ => Returned []
    end.

End Services.



(** ** [load_document] and [process_document]

    The file system and the parsing libraries are a [file_system]: what
    [Path.read_text], [pypdf] and [python-docx] give for a path.  The
    path is its [name] and its lower-cased [suffix]. *)

Module Loader.

Import Services.

(** [x or ""] *)
Definition or_empty (x : option str) : str :=
  match x with
  | Some s => s
  | None => []
  end.

(** The dicts returned by [load_pdf]. *)
Record pdf_page := {
  page_text : str;
  page_number : Z
}.

(** The loop of [load_pdf] over [enumerate(reader.pages, start=i)], on
    the results of [page.extract_text()]. *)
Fixpoint load_pdf_from (i : Z) (extracted : list (option str))
    : list pdf_page :=
  match extracted with
  | [] => []
  | x :: r =>
      let text := or_empty x in
      if truthy (strip text)
      then {| page_text := text; page_number := i |}
             :: load_pdf_from (i + 1) r
      else load_pdf_from (i + 1) r
  end.

Definition load_pdf (extracted : list (option str)) : list pdf_page :=
  load_pdf_from 1 extracted.

(** [load_docx] on the texts of [doc.paragraphs]. *)
Definition load_docx (paragraph_texts : list str) : str :=
  join nn (filter (fun t => truthy (strip t)) paragraph_texts).

Record file_system := {
  read_text : str -> str;
  pdf_extracted : str -> list (option str);
  docx_paragraphs : str -> list str
}.

Definition str_eqb (a b : str) : bool :=
  if list_eq_dec ascii_dec a b then true else false.

Definition load_document (fs : file_system) (name suffix : str)
    : list Ids.doc_part :=
  if str_eqb suffix (lit ".pdf") then
    map (fun p => {| Ids.part_text := page_text p;
                     Ids.part_source := name;
                     Ids.part_page := page_number p |})
      (load_pdf (pdf_extracted fs name))
  else if str_eqb suffix (lit ".docx") then
    [{| Ids.part_text := load_docx (docx_paragraphs fs name);
        Ids.part_source := name;
        Ids.part_page := 0 |}]
  else if str_eqb suffix (lit ".txt") || str_eqb suffix (lit ".md")
          || str_eqb suffix (lit ".markdown") then
    [{| Ids.part_text := read_text fs name;
        Ids.part_source := name;
        Ids.part_page := 0 |}]
  else [].

Definition process_document (md5_hexdigest : str -> str) (fs : file_system)
    (name suffix : str) (chunk_size chunk_overlap : Z) : list Ids.chunk :=
  match load_document fs name suffix with
  | [] => []
  | doc_parts =>
      Ids.process_parts md5_hexdigest doc_parts chunk_size chunk_overlap
  end.

End Loader.

(** ** [process_directory], [RAGPipeline.ingest] and [RAGPipeline.setup] *)

Module Ingest.

Import Services Loader.
Local Open Scope op_scope.

Definition process_directory (md5_hexdigest : str -> str) (fs : file_system)
    (directory : local_path) (chunk_size chunk_overlap : Z)
    : op (list Ids.chunk) :=
  if negb (is_dir directory)
  then raise (ValueError (entry_path (as_entry directory)))
  else
    ret (fold_left
           (fun all_chunks file_path =>
              if str_in (entry_suffix file_path)
                   [lit ".pdf"; lit ".txt"; lit ".md"; lit ".markdown";
                    lit ".docx"]
              then all_chunks
                     ++ process_document md5_hexdigest fs
                          (entry_name file_path) (entry_suffix file_path)
                          chunk_size chunk_overlap
              else all_chunks)
           (sorted_iterdir directory) []).

Definition ingest (self : RAGPipeline) (md5_hexdigest : str -> str)
    (fs : file_system) (source : local_path) (upload_to_blob : bool)
    (chunk_size chunk_overlap : Z) : op Z :=
  (if upload_to_blob
   then if is_dir source
        then upload_directory source ;;; ret tt
        else upload_file (as_entry source) None ;;; ret tt
   else ret tt) ;;;
  chunks <-
    (if is_dir source
     then process_directory md5_hexdigest fs source chunk_size chunk_overlap
     else ret (process_document md5_hexdigest fs
                 (entry_name (as_entry source))
                 (entry_suffix (as_entry source))
                 chunk_size chunk_overlap)) ;;
  match chunks with
  | [] => ret 0
  | _ :: _ => index_documents chunks
  end.

Definition setup (self : RAGPipeline) (index_name : str) : op unit :=
  create_index index_name ;;; ret tt.

End Ingest.

(** ** [AppConfig.validate] *)

Module Config.

Record AzureOpenAIConfig := {
  openai_endpoint : str;
  openai_key : str;
  api_version : str;
  chat_deployment : str;
  embedding_deployment : str
}.

Record AzureSearchConfig := {
  search_endpoint : str;
  search_key : str;
  index_name : str
}.

Record AzureStorageConfig := {
  connection_string : str;
  container_name : str
}.

Record AppConfig := {
  openai : AzureOpenAIConfig;
  search : AzureSearchConfig;
  storage : AzureStorageConfig
}.

(** [if not setting: missing.append(name)] *)
Definition append_if_missing (missing : list str) (setting name : str)
    : list str :=
  if negb (truthy setting) then missing ++ [name] else missing.

Definition validate (self : AppConfig) : list str :=
  let missing := [] in
  let missing :=
    append_if_missing missing (openai_endpoint (openai self))
      (lit "AZURE_OPENAI_ENDPOINT") in
  let missing :=
    append_if_missing missing (openai_key (openai self))
      (lit "AZURE_OPENAI_KEY") in
  let missing :=
    append_if_missing missing (search_endpoint (search self))
      (lit "AZURE_SEARCH_ENDPOINT") in
  let missing :=
    append_if_missing missing (search_key (search self))
      (lit "AZURE_SEARCH_KEY") in
  let missing :=
    append_if_missing missing (connection_string (storage self))
      (lit "AZURE_STORAGE_CONNECTION_STRING") in
  missing.

End Config.

(** ** Reading more from the chunks and the events *)

Module Readings.

Import Services.

(** The last character is one of [.!?]. *)
Definition ends_terminal (s : str) : bool :=
  match rev s with
  | [] => false
  | c :: _ => is_terminal c
  end.

(** The batches sent to the Embedding Client, in order. *)
Fixpoint embedded_batches (evs : list event) : list (list str) :=
  match evs with
  | [] => []
  | Called c _ :: r =>
      match c with
      | embeddings_create_batch input => input :: embedded_batches r
      | _ => embedded_batches r
      end
  | Yielded _ :: r => embedded_batches r
  end.

(** The batches uploaded to the Index Store, in order. *)
Fixpoint uploaded_batches (evs : list event) : list (list document) :=
  match evs with
  | [] => []
  | Called c _ :: r =>
      match c with
      | upload_documents batch => batch :: uploaded_batches r
      | _ => uploaded_batches r
      end
  | Yielded _ :: r => uploaded_batches r
  end.

(** The last event is a call that failed with [e]. *)
Definition ends_with_failure (evs : list event) (e : exn) : Prop :=
  exists evs0 R (c : call R), evs = evs0 ++ [Called c (Raised e)].

(** An operation that stops at the call that fails. *)
Definition aborts {A : Type} (m : op A) : Prop :=
  forall w h e evs, m w h = (Raised e, evs) -> ends_with_failure evs e.

(** The tokens a streamed completion carries: the content of the first
    choice of each chunk, when there is one and it is not empty. *)
Definition tokens_of (chunks : list stream_chunk) : list str :=
  flat_map
    (fun chunk =>
       match choices chunk with
       | Some content :: _ => if truthy content then [content] else []
       | _ => []
       end)
    chunks.

(** The Embedding Client answers a batch with one vector per text. *)
Definition one_vector_per_text (w : world) : Prop :=
  forall h input, exists data,
    w _ h (embeddings_create_batch input) = Returned data
    /\ length data = length input.

(** The Index Store takes every batch and accepts each document. *)
Definition uploads_succeed (w : world) : Prop :=
  forall h batch,
    w _ h (upload_documents batch) = Returned (map (fun _ => true) batch).

(** What a document of the index keeps of a chunk. *)
Definition document_fields (d : document) : str * str * str * Z * Z :=
  (doc_id d, doc_content d, doc_source d, doc_page d, doc_chunk_index d).

Definition chunk_fields (c : Ids.chunk) : str * str * str * Z * Z :=
  (Ids.id c, Ids.content c, Ids.source c, Ids.page c, Ids.chunk_index c).

End Readings.

(** ** Facts about the string primitives *)

Section StripFacts.

Lemma len_app (a b : str) : len (a ++ b) = len a + len b.
Proof. unfold len. rewrite length_app. lia. Qed.

Lemma len_nonneg (a : str) : 0 <= len a.
Proof. unfold len. lia. Qed.

Lemma len_cons (c : ascii) (s : str) : len (c :: s) = 1 + len s.
Proof. unfold len. cbn [length]. lia. Qed.

Lemma len_nn : len nn = 2.
Proof. reflexivity. Qed.

Lemma nonws_app (a b : str) : nonws (a ++ b) = nonws a ++ nonws b.
Proof. apply filter_app. Qed.

Lemma nonws_nn : nonws nn = [].
Proof. reflexivity. Qed.

Lemma nonws_rev (s : str) : nonws (rev s) = rev (nonws s).
Proof.
  induction s as [|c s IH]; simpl; [reflexivity|].
  rewrite nonws_app, IH. simpl.
  destruct (is_space c); simpl; [apply app_nil_r | reflexivity].
Qed.

(** [lstrip] removes a whitespace prefix and nothing else. *)
Lemma lstrip_split (s : str) :
  exists w, s = w ++ lstrip s /\ forallb is_space w = true.
Proof.
  induction s as [|c s (w & Hw & Hsp)].
  - exists []. split; reflexivity.
  - simpl. destruct (is_space c) eqn:Hc.
    + exists (c :: w). simpl. rewrite Hc, Hsp. split; [congruence | reflexivity].
    + exists []. split; reflexivity.
Qed.

Lemma nonws_spaces (w : str) : forallb is_space w = true -> nonws w = [].
Proof.
  induction w as [|c w IH]; simpl; [reflexivity|].
  intros H. apply andb_prop in H as [Hc Hw]. rewrite Hc. simpl. auto.
Qed.

Lemma nonws_lstrip (s : str) : nonws (lstrip s) = nonws s.
Proof.
  destruct (lstrip_split s) as (w & Hw & Hsp).
  rewrite Hw at 2. rewrite nonws_app, (nonws_spaces _ Hsp). reflexivity.
Qed.

Lemma nonws_rstrip (s : str) : nonws (rstrip s) = nonws s.
Proof.
  unfold rstrip. rewrite nonws_rev, nonws_lstrip, nonws_rev.
  apply rev_involutive.
Qed.

Lemma nonws_strip (s : str) : nonws (strip s) = nonws s.
Proof. unfold strip. rewrite nonws_rstrip. apply nonws_lstrip. Qed.

Lemma lstrip_solid (s : str) : starts_solid s = true -> lstrip s = s.
Proof.
  destruct s as [|c s]; simpl; [reflexivity|].
  destruct (is_space c); [discriminate | reflexivity].
Qed.

Lemma lstrip_shape (s : str) : lstrip s = [] \/ starts_solid (lstrip s) = true.
Proof.
  induction s as [|c s IH]; simpl; [now left|].
  destruct (is_space c) eqn:Hc; [exact IH|].
  right. simpl. now rewrite Hc.
Qed.

Lemma rstrip_solid (s : str) : ends_solid s = true -> rstrip s = s.
Proof.
  unfold ends_solid, rstrip. intros H.
  rewrite (lstrip_solid _ H). apply rev_involutive.
Qed.

Lemma starts_solid_app (a b : str) :
  starts_solid a = true -> starts_solid (a ++ b) = true.
Proof. destruct a; simpl; [discriminate | auto]. Qed.

Lemma ends_solid_app (a b : str) :
  ends_solid b = true -> ends_solid (a ++ b) = true.
Proof.
  unfold ends_solid. rewrite rev_app_distr. apply starts_solid_app.
Qed.

Lemma ends_solid_cons (c : ascii) (s : str) :
  ends_solid s = true -> ends_solid (c :: s) = true.
Proof. apply (ends_solid_app [c]). Qed.

Lemma ends_solid_single (c : ascii) : ends_solid [c] = negb (is_space c).
Proof. reflexivity. Qed.

Lemma ends_solid_tail (c : ascii) (s : str) :
  s <> [] -> ends_solid (c :: s) = ends_solid s.
Proof.
  intros Hs. unfold ends_solid. simpl.
  destruct (rev s) as [|d t] eqn:Hr; [|reflexivity].
  apply (f_equal (@rev ascii)) in Hr. rewrite rev_involutive in Hr.
  contradiction.
Qed.

Lemma solid_nonempty (s : str) : starts_solid s = true -> s <> [].
Proof. destruct s; [discriminate | discriminate]. Qed.

Lemma ends_solid_nonempty (s : str) : ends_solid s = true -> s <> [].
Proof. destruct s; [discriminate | discriminate]. Qed.

(** A solid last character survives [lstrip]. *)
Lemma ends_solid_lstrip (s : str) :
  ends_solid s = true -> ends_solid (lstrip s) = true.
Proof.
  induction s as [|c s IH]; simpl; [auto|].
  intros H. destruct (is_space c) eqn:Hc; [|exact H].
  destruct s as [|d s].
  - rewrite ends_solid_single, Hc in H. discriminate.
  - apply IH. rewrite ends_solid_tail in H; [exact H | discriminate].
Qed.

(** On a buffer that ends with a solid character, [strip] only removes
    leading whitespace. *)
Lemma strip_ends_solid (s : str) :
  ends_solid s = true -> strip s = lstrip s.
Proof.
  intros H. unfold strip. apply rstrip_solid, ends_solid_lstrip, H.
Qed.

Lemma strip_trimmed (s : str) : trimmed s = true -> strip s = s.
Proof.
  unfold trimmed. intros H. apply andb_prop in H as [Hs He].
  rewrite (strip_ends_solid _ He). apply lstrip_solid, Hs.
Qed.

Lemma starts_solid_rstrip (s : str) :
  starts_solid s = true -> starts_solid (rstrip s) = true.
Proof.
  intros H. unfold rstrip.
  destruct (lstrip_split (rev s)) as (w & Hw & Hsp).
  apply (f_equal (@rev ascii)) in Hw.
  rewrite rev_involutive, rev_app_distr in Hw.
  destruct (rev (lstrip (rev s))) as [|c t] eqn:Hr.
  - simpl in Hw. subst s. destruct w as [|d w] using rev_ind; [discriminate|].
    rewrite rev_app_distr in H. simpl in H.
    rewrite forallb_app in Hsp. simpl in Hsp.
    destruct (is_space d); [discriminate | now rewrite andb_false_r in Hsp].
  - subst s. exact H.
Qed.

(** A chunk that survives the emptiness test is trimmed. *)
Lemma strip_is_trimmed (s : str) :
  truthy (strip s) = true -> trimmed (strip s) = true.
Proof.
  intros Ht. unfold trimmed. apply andb_true_intro. split.
  - unfold strip in *. destruct (lstrip_shape s) as [E|E].
    + rewrite E in Ht. discriminate.
    + apply starts_solid_rstrip, E.
  - unfold strip, rstrip, ends_solid in *. rewrite rev_involutive.
    destruct (lstrip_shape (rev (lstrip s))) as [E|E]; [|exact E].
    rewrite E in Ht. discriminate.
Qed.

Lemma strip_length (s : str) : len (strip s) <= len s.
Proof.
  unfold strip, rstrip, len.
  destruct (lstrip_split s) as (w & Hw & _).
  destruct (lstrip_split (rev (lstrip s))) as (v & Hv & _).
  apply (f_equal (@length ascii)) in Hw, Hv.
  rewrite length_app in Hw, Hv. rewrite length_rev in *. lia.
Qed.

Lemma trimmed_has_content (s : str) : trimmed s = true -> nonws s <> [].
Proof.
  unfold trimmed. destruct s as [|c s]; simpl; [discriminate|].
  destruct (is_space c); simpl; [discriminate | discriminate].
Qed.

End StripFacts.

(** ** Facts about the two splits *)

Section SplitFacts.

Lemma concat_cons_head (c : ascii) (l : list str) :
  concat (cons_head c l) = c :: concat l.
Proof. destruct l; reflexivity. Qed.

Lemma is_newline_space (c : ascii) : is_newline c = true -> is_space c = true.
Proof.
  unfold is_newline. intros H. apply Ascii.eqb_eq in H. subst c. reflexivity.
Qed.

Lemma is_terminal_solid (c : ascii) : is_terminal c = true -> is_space c = false.
Proof.
  unfold is_terminal. intros H.
  apply orb_prop in H as [H|H]; [apply orb_prop in H as [H|H]|];
    apply Ascii.eqb_eq in H; subst c; reflexivity.
Qed.

(** Two-characters-at-a-time induction, the recursion scheme of
    [split_nn]. *)
Lemma str_pair_ind (P : str -> Prop) :
  P [] ->
  (forall c, P [c]) ->
  (forall c1 c2 r, P r -> P (c2 :: r) -> P (c1 :: c2 :: r)) ->
  forall s, P s.
Proof.
  intros H0 H1 H2 s.
  enough (P s /\ forall c, P (c :: s)) as [H _] by exact H.
  induction s as [|c s [IHa IHb]]; split; auto.
Qed.

(** [split] only removes separators, which are whitespace. *)
Lemma nonws_split_nn (s : str) : nonws (concat (split_nn s)) = nonws s.
Proof.
  induction s as [|c|c1 c2 r IHr IHc] using str_pair_ind; [reflexivity| |].
  - reflexivity.
  - change (split_nn (c1 :: c2 :: r))
      with (if is_newline c1 && is_newline c2 then [] :: split_nn r
            else cons_head c1 (split_nn (c2 :: r))).
    destruct (is_newline c1 && is_newline c2) eqn:E.
    + apply andb_prop in E as [E1 E2].
      apply is_newline_space in E1, E2.
      simpl. rewrite E1, E2. simpl. exact IHr.
    + rewrite concat_cons_head.
      change (c1 :: concat (split_nn (c2 :: r)))
        with ([c1] ++ concat (split_nn (c2 :: r))).
      rewrite nonws_app, IHc. symmetry. apply (nonws_app [c1]).
Qed.

Lemma nonws_re_split_from (s : str) :
  forall st, nonws (concat (re_split_from st s)) = nonws s.
Proof.
  induction s as [|c r IH]; intros st; [reflexivity|].
  assert (Hcons : nonws (concat (cons_head c (re_split_from (scan_of c) r)))
                  = nonws (c :: r)).
  { rewrite concat_cons_head. simpl. now rewrite IH. }
  destruct st; simpl re_split_from; [exact Hcons | |];
    destruct (is_space c) eqn:Hc; try exact Hcons;
    simpl; rewrite Hc; simpl; apply IH.
Qed.

Lemma nonws_paragraphs (text : str) :
  nonws (concat (paragraphs text)) = nonws text.
Proof.
  unfold paragraphs. rewrite <- (nonws_split_nn text).
  induction (split_nn text) as [|p l IH]; [reflexivity|].
  simpl. destruct (truthy (strip p)) eqn:Hp; simpl.
  - rewrite !nonws_app, IH, nonws_strip. reflexivity.
  - rewrite nonws_app, IH, <- (nonws_strip p).
    destruct (strip p); [reflexivity | discriminate].
Qed.

Lemma nonws_pieces (text : str) (chunk_size : Z) :
  nonws (concat (pieces text chunk_size)) = nonws text.
Proof.
  unfold pieces. rewrite <- (nonws_paragraphs text).
  induction (paragraphs text) as [|p l IH]; [reflexivity|].
  simpl. rewrite concat_app, !nonws_app, IH. f_equal.
  unfold pieces_of, re_split_sentences.
  destruct (len p >? chunk_size).
  - apply nonws_re_split_from.
  - simpl. now rewrite app_nil_r.
Qed.

Lemma paragraphs_trimmed (text : str) :
  Forall (fun p => trimmed p = true) (paragraphs text).
Proof.
  unfold paragraphs. apply Forall_map, Forall_forall.
  intros p Hp. apply filter_In in Hp as [_ Hp].
  apply strip_is_trimmed, Hp.
Qed.

(** Shape of the fields of the sentence split of a string whose last
    character is solid: every field after the first is trimmed, the
    first one ends solid unless it is empty, which happens only at the
    end of the string or at the start of a match. *)
Lemma re_split_from_shape (s : str) :
  forall st, s = [] \/ ends_solid s = true ->
    match re_split_from st s with
    | [] => False
    | h :: t =>
        Forall (fun p => trimmed p = true) t
        /\ (h = [] \/ ends_solid h = true)
        /\ (h = [] -> s = [] \/ st = AfterTerminal)
        /\ (st = InGap -> s <> [] -> starts_solid h = true)
    end.
Proof.
  induction s as [|c r IH]; intros st Hs.
  - simpl. repeat split; auto.
  - assert (Hr : r = [] \/ ends_solid r = true).
    { destruct r as [|d r]; [now left | right].
      destruct Hs as [Hs|Hs]; [discriminate|].
      rewrite ends_solid_tail in Hs; [exact Hs | discriminate]. }
    assert (Hlast : r = [] -> is_space c = false).
    { intros ->. destruct Hs as [Hs|Hs]; [discriminate|].
      rewrite ends_solid_single in Hs. now apply negb_true_iff in Hs. }
    assert (Hkeep : is_space c = false \/ st = Plain ->
      match cons_head c (re_split_from (scan_of c) r) with
      | [] => False
      | h :: t =>
          Forall (fun p => trimmed p = true) t
          /\ (h = [] \/ ends_solid h = true)
          /\ (h = [] -> c :: r = [] \/ st = AfterTerminal)
          /\ (st = InGap -> c :: r <> [] -> starts_solid h = true)
      end).
    { intros Hc. specialize (IH (scan_of c) Hr).
      destruct (re_split_from (scan_of c) r) as [|h t]; [contradiction|].
      destruct IH as (Ht & Hh & Hnil & _). simpl.
      repeat split; [exact Ht | right | discriminate |].
      - destruct Hh as [->|Hh]; [|now apply ends_solid_cons].
        rewrite ends_solid_single. apply negb_true_iff.
        destruct (Hnil eq_refl) as [E|E]; [now apply Hlast|].
        apply is_terminal_solid. unfold scan_of in E.
        destruct (is_terminal c); [reflexivity | discriminate].
      - intros -> _. destruct Hc as [Hc|Hc]; [|discriminate].
        simpl. now rewrite Hc. }
    assert (Hgap : is_space c = true ->
      match re_split_from InGap r with
      | [] => False
      | h :: t =>
          Forall (fun p => trimmed p = true) t
          /\ trimmed h = true
      end).
    { intros Hc. specialize (IH InGap Hr).
      destruct (re_split_from InGap r) as [|h t]; [contradiction|].
      destruct IH as (Ht & Hh & Hnil & Hstart).
      assert (Hne : r <> []).
      { intros E. apply Hlast in E. congruence. }
      split; [exact Ht|].
      specialize (Hstart eq_refl Hne).
      unfold trimmed. rewrite Hstart. simpl.
      destruct Hh as [->|Hh]; [discriminate | exact Hh]. }
    destruct st; simpl re_split_from.
    + apply Hkeep. now right.
    + destruct (is_space c) eqn:Hc; [|apply Hkeep; now left].
      specialize (Hgap eq_refl).
      destruct (re_split_from InGap r) as [|h t]; [contradiction|].
      destruct Hgap as [Ht Hh].
      repeat split; auto. discriminate.
    + destruct (is_space c) eqn:Hc; [|apply Hkeep; now left].
      specialize (Hgap eq_refl).
      destruct (re_split_from InGap r) as [|h t]; [contradiction|].
      destruct Hgap as [Ht Hh]. unfold trimmed in Hh.
      apply andb_prop in Hh as [Hh1 Hh2].
      repeat split; auto.
      intros ->. discriminate.
Qed.

Lemma re_split_sentences_trimmed (para : str) :
  trimmed para = true ->
  Forall (fun p => trimmed p = true) (re_split_sentences para).
Proof.
  intros H. unfold trimmed in H. apply andb_prop in H as [Hs He].
  unfold re_split_sentences.
  pose proof (re_split_from_shape para Plain (or_intror He)) as Hshape.
  destruct para as [|c r]; [discriminate|].
  simpl in Hshape |- *.
  pose proof (re_split_from_shape r (scan_of c)) as Hr.
  destruct (re_split_from (scan_of c) r) as [|h t].
  - simpl in *. destruct Hshape as (_ & [E|E] & _); [discriminate|].
    constructor; [|constructor].
    unfold trimmed. apply andb_true_intro. split; [exact Hs | exact E].
  - simpl in *. destruct Hshape as (Ht & [E|E] & _); [discriminate|].
    constructor; [|exact Ht].
    unfold trimmed. apply andb_true_intro. split; [exact Hs | exact E].
Qed.

(** A field of the sentence split is no longer than the string. *)
Lemma re_split_from_len (s : str) :
  forall st, Forall (fun p => len p <= len s) (re_split_from st s).
Proof.
  induction s as [|c r IH]; intros st.
  - repeat constructor. reflexivity.
  - assert (Hweak : forall st',
              Forall (fun p => len p <= len (c :: r)) (re_split_from st' r)).
    { intros st'. eapply Forall_impl; [|apply IH].
      intros p Hp. cbv beta in *. rewrite len_cons. lia. }
    assert (Hkeep : Forall (fun p => len p <= len (c :: r))
                      (cons_head c (re_split_from (scan_of c) r))).
    { specialize (IH (scan_of c)). specialize (Hweak (scan_of c)).
      destruct (re_split_from (scan_of c) r) as [|h t]; cbn [cons_head].
      - repeat constructor. pose proof (len_nonneg r).
        rewrite !len_cons. change (len []) with 0. lia.
      - inversion IH; subst. inversion Hweak; subst.
        constructor; [|assumption]. rewrite !len_cons. lia. }
    destruct st; simpl re_split_from; [exact Hkeep | |];
      destruct (is_space c); try exact Hkeep; [|apply Hweak].
    constructor; [|apply Hweak]. apply len_nonneg.
Qed.

(** A sentence longer than [chunk_size] is a piece. *)
Lemma oversized_sentence_piece (text : str) (chunk_size : Z)
    (para p : str) :
  In para (paragraphs text) -> In p (re_split_sentences para) ->
  chunk_size < len p ->
  In p (pieces text chunk_size).
Proof.
  intros Hpara Hp Hlen. unfold pieces. apply in_flat_map.
  exists para. split; [exact Hpara|]. unfold pieces_of.
  pose proof (re_split_from_len para Plain) as H.
  rewrite Forall_forall in H. specialize (H p Hp).
  replace (len para >? chunk_size) with true; [exact Hp|].
  symmetry. apply Z.gtb_lt. lia.
Qed.

(** Every piece handed to the merge loop is non-empty and starts and
    ends with a non-whitespace character. *)
Lemma pieces_trimmed (text : str) (chunk_size : Z) :
  Forall (fun p => trimmed p = true) (pieces text chunk_size).
Proof.
  unfold pieces. pose proof (paragraphs_trimmed text) as H.
  induction H as [|p l Hp Hl IH]; simpl; [constructor|].
  apply Forall_app. split; [|exact IH].
  unfold pieces_of. destruct (len p >? chunk_size).
  - apply re_split_sentences_trimmed, Hp.
  - constructor; [exact Hp | constructor].
Qed.

End SplitFacts.

(** ** The merge loop *)

Section MergeFacts.

Variables chunk_size chunk_overlap : Z.

Abbreviation step := (merge_step chunk_size chunk_overlap).
Abbreviation next := (next_buffer chunk_size chunk_overlap).
Abbreviation flushed_from := (flushed chunk_size chunk_overlap).
Abbreviation final_from := (final chunk_size chunk_overlap).
Abbreviation emit_from := (emit chunk_size chunk_overlap).

Lemma next_buffer_eq (cur p : str) :
  next cur p =
    if flushes chunk_size cur p
    then (if chunk_overlap >? 0
          then tail_slice chunk_overlap cur ++ nn ++ p else p)
    else (if truthy cur then cur ++ nn ++ p else p).
Proof.
  unfold next_buffer, merge_step, flushes.
  destruct ((len cur + len p >? chunk_size) && truthy cur); reflexivity.
Qed.

Lemma merge_step_eq (chunks : list str) (cur p : str) :
  step (chunks, cur) p =
    (chunks ++ (if flushes chunk_size cur p then [strip cur] else []),
     next cur p).
Proof.
  unfold next_buffer, merge_step, flushes.
  destruct ((len cur + len p >? chunk_size) && truthy cur); simpl;
    [reflexivity | now rewrite app_nil_r].
Qed.

(** The fold over the pieces appends the stripped flushed buffers. *)
Lemma merge_fold (ps : list str) :
  forall chunks cur,
    fold_left step ps (chunks, cur) =
      (chunks ++ map strip (flushed_from ps cur), final_from ps cur).
Proof.
  induction ps as [|p r IH]; intros chunks cur; cbn [fold_left].
  - simpl. now rewrite app_nil_r.
  - rewrite merge_step_eq, IH. unfold final. cbn [fold_left flushed]. f_equal.
    destruct (flushes chunk_size cur p); simpl.
    + now rewrite <- app_assoc.
    + now rewrite app_nil_r.
Qed.

Lemma emit_nil (cur : str) : emit_from [] cur = [cur].
Proof. reflexivity. Qed.

Lemma emit_cons (p : str) (r : list str) (cur : str) :
  emit_from (p :: r) cur =
    if flushes chunk_size cur p then cur :: emit_from r (next cur p)
    else emit_from r (next cur p).
Proof.
  unfold emit, final. simpl. destruct (flushes chunk_size cur p); reflexivity.
Qed.

Lemma emit_first (p : str) (r : list str) :
  emit_from (p :: r) [] = emit_from r p.
Proof.
  rewrite emit_cons, next_buffer_eq. unfold flushes. simpl.
  now rewrite andb_false_r.
Qed.

Lemma flushes_truthy (cur p : str) :
  flushes chunk_size cur p = true -> truthy cur = true.
Proof. unfold flushes. intros H. now apply andb_prop in H. Qed.

Lemma truthy_ends_solid (s : str) : ends_solid s = true -> truthy s = true.
Proof. destruct s; [discriminate | reflexivity]. Qed.

(** Once a trimmed piece is in the buffer, the buffer ends solid. *)
Lemma next_ends_solid (cur p : str) :
  trimmed p = true -> ends_solid (next cur p) = true.
Proof.
  unfold trimmed. intros H. apply andb_prop in H as [_ He].
  rewrite next_buffer_eq.
  destruct (flushes chunk_size cur p), (chunk_overlap >? 0), (truthy cur);
    auto; rewrite app_assoc; now apply ends_solid_app.
Qed.

Lemma emit_ends_solid (ps : list str) :
  Forall (fun p => trimmed p = true) ps ->
  forall cur, ends_solid cur = true ->
    Forall (fun b => ends_solid b = true) (emit_from ps cur).
Proof.
  induction 1 as [|p r Hp Hr IH]; intros cur Hcur.
  - rewrite emit_nil. now constructor.
  - rewrite emit_cons.
    pose proof (IH _ (next_ends_solid cur p Hp)) as Hrest.
    destruct (flushes chunk_size cur p); [now constructor | exact Hrest].
Qed.

Lemma truthy_strip_ends_solid (b : str) :
  ends_solid b = true -> truthy (strip b) = true.
Proof.
  intros H. rewrite (strip_ends_solid _ H).
  apply truthy_ends_solid, ends_solid_lstrip, H.
Qed.

End MergeFacts.

(** ** [chunk_text] through its buffers *)

Section ChunkBuffers.

Lemma blank_text (text : str) :
  negb (truthy text) || negb (truthy (strip text)) = true ->
  nonws text = [].
Proof.
  intros H. rewrite <- nonws_strip.
  destruct text as [|c t]; [reflexivity|].
  simpl in H. destruct (strip (c :: t)); [reflexivity | discriminate].
Qed.

Lemma content_pieces (ps : list str) :
  Forall (fun p => trimmed p = true) ps ->
  nonws (concat ps) = [] -> ps = [].
Proof.
  intros Hps H. destruct ps as [|p r]; [reflexivity|].
  simpl in H. rewrite nonws_app in H.
  apply app_eq_nil in H as [H _].
  inversion Hps; subst. now apply trimmed_has_content in H.
Qed.

Lemma blank_pieces (text : str) (chunk_size : Z) :
  nonws text = [] -> pieces text chunk_size = [].
Proof.
  intros H. apply content_pieces; [apply pieces_trimmed|].
  now rewrite nonws_pieces.
Qed.

(** The buffers of a text are those of the merge loop started on the
    first piece. *)
Lemma chunk_buffers_emit (text : str) (chunk_size chunk_overlap : Z) :
  chunk_buffers text chunk_size chunk_overlap =
    match pieces text chunk_size with
    | [] => []
    | p :: r => emit chunk_size chunk_overlap r p
    end.
Proof.
  unfold chunk_buffers.
  destruct (negb (truthy text) || negb (truthy (strip text))) eqn:E.
  - now rewrite (blank_pieces text chunk_size (blank_text _ E)).
  - pose proof (pieces_trimmed text chunk_size) as Hps.
    destruct (pieces text chunk_size) as [|p r]; [reflexivity|].
    inversion Hps as [|? ? Hp Hr]; subst.
    assert (He : ends_solid (final chunk_size chunk_overlap (p :: r) []) = true).
    { pose proof (emit_ends_solid chunk_size chunk_overlap r Hr p) as H.
      unfold trimmed in Hp. apply andb_prop in Hp as [_ Hp].
      specialize (H Hp). unfold emit in H.
      apply Forall_app in H as [_ H]. inversion H; subst.
      unfold final in *. simpl. rewrite next_buffer_eq. unfold flushes.
      simpl. now rewrite andb_false_r. }
    cbv zeta. rewrite (truthy_strip_ends_solid _ He).
    change (emit chunk_size chunk_overlap (p :: r) []
            = emit chunk_size chunk_overlap r p).
    apply emit_first.
Qed.

(** Each chunk is its buffer, stripped. *)
Lemma chunk_text_buffers (text : str) (chunk_size chunk_overlap : Z) :
  chunk_text text chunk_size chunk_overlap =
    map strip (chunk_buffers text chunk_size chunk_overlap).
Proof.
  unfold chunk_text, chunk_buffers.
  destruct (negb (truthy text) || negb (truthy (strip text)));
    [reflexivity|].
  unfold merge. rewrite merge_fold. simpl. cbv zeta.
  rewrite map_app.
  destruct (truthy (strip (final chunk_size chunk_overlap
                             (pieces text chunk_size) []))); simpl;
    [reflexivity | now rewrite app_nil_r].
Qed.

End ChunkBuffers.

(** ** Blank input *)

Section Blank.

Lemma lstrip_spaces (s : str) : forallb is_space s = true -> lstrip s = [].
Proof.
  induction s as [|c s IH]; simpl; [reflexivity|].
  intros H. apply andb_prop in H as [Hc Hs]. rewrite Hc. auto.
Qed.

Lemma strip_spaces (s : str) : forallb is_space s = true -> strip s = [].
Proof. intros H. unfold strip. now rewrite (lstrip_spaces _ H). Qed.

(** C9: on the empty string and on a string of whitespace only,
    [chunk_text] returns the empty list, whatever [chunk_size] and
    [chunk_overlap] are.  [chunk_text] is a total function: no error. *)
Theorem chunk_text_blank (text : str) (chunk_size chunk_overlap : Z) :
  forallb is_space text = true ->
  chunk_text text chunk_size chunk_overlap = [].
Proof.
  intros H. unfold chunk_text. rewrite (strip_spaces _ H). simpl.
  now rewrite orb_true_r.
Qed.

Lemma chunk_text_blank_witness :
  chunk_text [] 500 50 = []
  /\ chunk_text (lit "  " ++ nn ++ lit " ") 500 50 = []
  /\ chunk_text (lit " ") (-3) (-1) = [].
Proof.
  split; [|split]; apply chunk_text_blank; reflexivity.
Defined.

End Blank.

(** ** The three-paragraph scenario *)

Section Scenario.


(** C3, where the code departs from its documentation: with
    [chunk_size = 100] and [chunk_overlap = 0] the three paragraphs fit
    one buffer and [chunk_text] returns them merged in a single chunk,
    equal to the input, not the three chunks of one paragraph each.
    The same happens on the example of its own docstring, which
    promises three chunks for [chunk_size = 100] and the default
    overlap of 50.  Three chunks of one paragraph each are what
    [chunk_size = 12] gives, where no two paragraphs fit together. *)
Theorem three_paragraphs_merge :
  chunk_text three_paragraphs 100 0 = [three_paragraphs]
  /\ chunk_text three_paragraphs 100 0
     <> [lit "Para one."; lit "Para two."; lit "Para three."]
  /\ chunk_text docstring_paragraphs 100 50 = [docstring_paragraphs]
  /\ chunk_text docstring_paragraphs 100 50
     <> [lit "Paragraph 1."; lit "Paragraph 2."; lit "Paragraph 3."]
  /\ chunk_text three_paragraphs 12 0
     = [lit "Para one."; lit "Para two."; lit "Para three."].
Proof.
  split; [reflexivity|]. split; [vm_compute; intros H; discriminate H|].
  split; [reflexivity|]. split; [vm_compute; intros H; discriminate H|].
  reflexivity.
Qed.

(** The three chunks the scenario expects are not what comes back. *)
Lemma three_paragraphs_not_three_chunks :
  chunk_text three_paragraphs 100 0
    <> [lit "Para one."; lit "Para two."; lit "Para three."]
  /\ length (chunk_text three_paragraphs 100 0) <> 3%nat.
Proof. split; vm_compute; intros H; discriminate H. Qed.

End Scenario.

(** ** No content is lost *)

Section Reconstruction.

Variables chunk_size chunk_overlap : Z.

Lemma skipn_spaces (w : str) (n : nat) :
  forallb is_space w = true -> nonws (skipn n w) = [].
Proof.
  intros H. apply nonws_spaces.
  rewrite <- (firstn_skipn n w), forallb_app in H.
  now apply andb_prop in H.
Qed.

(** Leading whitespace does not change the non-whitespace content of a
    tail slice. *)
Lemma nonws_tail_slice_lstrip (k : Z) (b : str) :
  nonws (tail_slice k (lstrip b)) = nonws (tail_slice k b).
Proof.
  destruct (lstrip_split b) as (w & Hw & Hsp).
  remember (lstrip b) as t eqn:Et. clear Et. subst b.
  unfold tail_slice.
  rewrite skipn_app, nonws_app, (skipn_spaces _ _ Hsp), length_app.
  simpl. do 2 f_equal. lia.
Qed.

Lemma nonws_overlap_strip (b : str) :
  ends_solid b = true ->
  nonws (overlap_of chunk_overlap (strip b))
  = nonws (overlap_of chunk_overlap b).
Proof.
  intros H. unfold overlap_of. rewrite (strip_ends_solid _ H).
  destruct (chunk_overlap >? 0); [|reflexivity].
  apply nonws_tail_slice_lstrip.
Qed.

(** What a flush leaves in the buffer is the overlap followed by the
    new piece. *)
Lemma nonws_seed (cur p : str) :
  flushes chunk_size cur p = true ->
  nonws (next_buffer chunk_size chunk_overlap cur p)
  = nonws (overlap_of chunk_overlap cur) ++ nonws p.
Proof.
  intros H. rewrite next_buffer_eq, H. unfold overlap_of.
  destruct (chunk_overlap >? 0); [|reflexivity].
  now rewrite !nonws_app, nonws_nn.
Qed.

Lemma nonws_append (cur p : str) :
  flushes chunk_size cur p = false -> truthy cur = true ->
  nonws (next_buffer chunk_size chunk_overlap cur p)
  = nonws cur ++ nonws p.
Proof.
  intros H Ht. rewrite next_buffer_eq, H, Ht.
  now rewrite !nonws_app, nonws_nn.
Qed.

(** The loop invariant: reading back the chunks still to come, with the
    first [k] characters of the buffer being a repetition, gives the
    rest of the buffer and the pieces not yet consumed. *)
Lemma remove_overlaps_emit (ps : list str) :
  Forall (fun p => trimmed p = true) ps ->
  forall cur k,
    ends_solid cur = true ->
    (k <= length (nonws cur))%nat ->
    remove_overlaps chunk_overlap k
      (map strip (emit chunk_size chunk_overlap ps cur))
    = skipn k (nonws cur) ++ nonws (concat ps).
Proof.
  induction 1 as [|p r Hp Hr IH]; intros cur k Hcur Hk.
  - rewrite emit_nil. simpl. now rewrite nonws_strip.
  - rewrite emit_cons. simpl concat. rewrite nonws_app.
    pose proof (next_ends_solid chunk_size chunk_overlap cur p Hp) as Hnext.
    destruct (flushes chunk_size cur p) eqn:Hf.
    + simpl. rewrite nonws_strip. f_equal.
      rewrite (nonws_overlap_strip _ Hcur).
      rewrite IH; [|exact Hnext|rewrite (nonws_seed _ _ Hf), length_app; lia].
      rewrite (nonws_seed _ _ Hf), skipn_app, skipn_all, Nat.sub_diag.
      reflexivity.
    + pose proof (nonws_append _ _ Hf (truthy_ends_solid _ Hcur)) as Happ.
      rewrite IH; [|exact Hnext|rewrite Happ, length_app; lia].
      rewrite Happ, skipn_app, <- app_assoc. do 2 f_equal.
      replace (k - length (nonws cur))%nat with 0%nat by lia.
      reflexivity.
Qed.

(** C2: reading the chunks back in order, each without the text it
    repeats from its predecessor, gives exactly the non-whitespace
    characters of the input, in order: nothing is lost. *)
Theorem chunk_text_reconstructs (text : str) :
  0 < chunk_size -> 0 <= chunk_overlap ->
  reconstruct chunk_overlap (chunk_text text chunk_size chunk_overlap)
  = nonws text.
Proof.
  intros _ _. unfold reconstruct.
  rewrite chunk_text_buffers, chunk_buffers_emit.
  rewrite <- (nonws_pieces text chunk_size).
  pose proof (pieces_trimmed text chunk_size) as Hps.
  destruct (pieces text chunk_size) as [|p r]; [reflexivity|].
  inversion Hps as [|? ? Hp Hr]; subst.
  unfold trimmed in Hp. apply andb_prop in Hp as [_ Hp].
  rewrite (remove_overlaps_emit r Hr p 0 Hp); [|lia].
  simpl. now rewrite nonws_app.
Qed.

End Reconstruction.

Lemma chunk_text_reconstructs_witness :
  let text := lit "One two. Three four! Five" ++ nn ++ lit "six seven." in
  chunk_text text 12 5
  = [lit "One two."; lit "two." ++ nn ++ lit "Three four!";
     lit "four!" ++ nn ++ lit "Five"; lit "Five" ++ nn ++ lit "six seven."]
  /\ reconstruct 5 (chunk_text text 12 5) = nonws text.
Proof.
  split; [reflexivity|].
  apply (chunk_text_reconstructs 12 5); lia.
Defined.

(** ** Size of the chunks *)

Section Sizes.

Variables chunk_size chunk_overlap : Z.

(** All the pieces of the text being chunked. *)
Variable all_pieces : list str.

Abbreviation shape_here :=
  (buffer_shape chunk_size chunk_overlap all_pieces).

Lemma tail_slice_len (k : Z) (s : str) : 0 < k -> len (tail_slice k s) <= k.
Proof.
  intros Hk. unfold tail_slice, len. rewrite length_skipn. lia.
Qed.

(** A buffer that was not flushed keeps its shape or gets the third
    one: the piece went in after the size test. *)
Lemma next_shape_append (cur p : str) (previous : option str) :
  In p all_pieces -> flushes chunk_size cur p = false ->
  shape_here previous (next_buffer chunk_size chunk_overlap cur p).
Proof.
  intros Hp Hf. rewrite next_buffer_eq, Hf. unfold flushes in Hf.
  destruct cur as [|c cur]; cbn [truthy]; [now left|].
  right. right. exists (c :: cur), p.
  repeat split; [discriminate | exact Hp|].
  cbn [truthy] in Hf. rewrite andb_true_r in Hf.
  assert (~ (len (c :: cur) + len p > chunk_size)).
  { intros H. apply Z.gtb_gt in H. congruence. }
  lia.
Qed.

(** A flush seeds the buffer from the one just emitted. *)
Lemma next_shape_seed (cur p : str) :
  In p all_pieces -> flushes chunk_size cur p = true ->
  shape_here (Some cur) (next_buffer chunk_size chunk_overlap cur p).
Proof.
  intros Hp Hf. rewrite next_buffer_eq, Hf.
  destruct (chunk_overlap >? 0) eqn:Hov; [|now left].
  right. left. apply Z.gtb_lt in Hov. split; [lia|].
  exists cur, p. now repeat split.
Qed.

Lemma emit_shapes (ps : list str) :
  incl ps all_pieces ->
  forall cur previous,
    shape_here previous cur ->
    chained shape_here previous (emit chunk_size chunk_overlap ps cur).
Proof.
  induction ps as [|p r IH]; intros Hincl cur previous Hcur.
  - rewrite emit_nil. now split.
  - rewrite emit_cons.
    assert (Hp : In p all_pieces) by (apply Hincl; now left).
    assert (Hr : incl r all_pieces) by (intros x Hx; apply Hincl; now right).
    destruct (flushes chunk_size cur p) eqn:Hf.
    + split; [exact Hcur|]. apply IH; [exact Hr|].
      now apply next_shape_seed.
    + apply IH; [exact Hr|]. now apply next_shape_append.
Qed.

(** An element of a chained list satisfies the property with the
    element before it. *)
Lemma chained_nth (P : option str -> str -> Prop) (l : list str) :
  forall previous i b,
    chained P previous l -> nth_error l i = Some b ->
    P (match i with O => previous | S j => nth_error l j end) b.
Proof.
  induction l as [|a l IH]; intros previous i b Hl Hi;
    [destruct i; discriminate|].
  destruct Hl as [Ha Hl]. destruct i as [|i].
  - injection Hi as <-. exact Ha.
  - cbn [nth_error] in Hi. specialize (IH (Some a) i b Hl Hi).
    destruct i as [|i]; exact IH.
Qed.

End Sizes.

Section ChunkSizes.

Lemma chunk_buffers_shaped (text : str) (chunk_size chunk_overlap : Z) :
  chained (buffer_shape chunk_size chunk_overlap (pieces text chunk_size))
    None (chunk_buffers text chunk_size chunk_overlap).
Proof.
  rewrite chunk_buffers_emit.
  pose proof (emit_shapes chunk_size chunk_overlap (pieces text chunk_size))
    as H.
  destruct (pieces text chunk_size) as [|p r]; [exact I|].
  apply H.
  - intros x Hx. now right.
  - left. now left.
Qed.

(** A piece longer than [chunk_size] is a sentence of a paragraph longer
    than [chunk_size]. *)
Lemma oversized_piece (text : str) (chunk_size : Z) (p : str) :
  In p (pieces text chunk_size) -> chunk_size < len p ->
  exists para,
    In para (paragraphs text) /\ chunk_size < len para
    /\ In p (re_split_sentences para).
Proof.
  unfold pieces. intros Hp Hlen.
  apply in_flat_map in Hp as (para & Hpara & Hin).
  exists para. unfold pieces_of in Hin.
  destruct (len para >? chunk_size) eqn:E.
  - apply Z.gtb_lt in E. auto.
  - destruct Hin as [<-|[]].
    assert (~ (len para > chunk_size)).
    { intros H. apply Z.gtb_gt in H. congruence. }
    lia.
Qed.

(** C1, as the code behaves: the chunk at position [i] is the stripped
    buffer at position [i], and that buffer is of one of three kinds.
    It is a single piece: then the chunk is that piece and has at most
    [chunk_size] characters, unless it is one sentence longer than
    [chunk_size], cut from a paragraph longer than [chunk_size] and
    emitted alone.  Or, with [chunk_overlap > 0], it is the last
    [chunk_overlap] characters of the buffer before it, a paragraph
    break and one piece: such a buffer is not held to [chunk_size].  Or
    a piece was merged into it, which the loop does only when the
    length of the buffer before the merge plus the length of the piece
    is at most [chunk_size]. *)
Theorem chunk_text_size (text : str) (chunk_size chunk_overlap : Z)
    (i : nat) (c : str) :
  0 < chunk_size -> 0 <= chunk_overlap ->
  nth_error (chunk_text text chunk_size chunk_overlap) i = Some c ->
  exists b,
    nth_error (chunk_buffers text chunk_size chunk_overlap) i = Some b
    /\ c = strip b
    /\ ((b = c /\ In c (pieces text chunk_size)
         /\ (len c <= chunk_size
             \/ (chunk_size < len c
                 /\ exists para,
                      In para (paragraphs text) /\ chunk_size < len para
                      /\ In c (re_split_sentences para))))
        \/ (0 < chunk_overlap
            /\ exists j prev p,
                 i = S j
                 /\ nth_error (chunk_buffers text chunk_size chunk_overlap) j
                    = Some prev
                 /\ In p (pieces text chunk_size)
                 /\ b = tail_slice chunk_overlap prev ++ nn ++ p)
        \/ (exists b0 p,
              b0 <> [] /\ In p (pieces text chunk_size)
              /\ b = b0 ++ nn ++ p
              /\ len b0 + len p <= chunk_size)).
Proof.
  intros _ _ Hc. rewrite chunk_text_buffers, nth_error_map in Hc.
  destruct (nth_error (chunk_buffers text chunk_size chunk_overlap) i)
    as [b|] eqn:Hb; [|discriminate].
  injection Hc as <-. exists b. split; [reflexivity|]. split; [reflexivity|].
  pose proof (chained_nth _ _ None i b
                (chunk_buffers_shaped text chunk_size chunk_overlap) Hb) as H.
  destruct H as [H | [(Hov & prev & p & Hprev & Hp & E) | H]].
  - left. pose proof (pieces_trimmed text chunk_size) as Ht.
    rewrite Forall_forall in Ht. rewrite (strip_trimmed _ (Ht b H)).
    split; [reflexivity|]. split; [exact H|].
    destruct (Z_le_gt_dec (len b) chunk_size) as [Hle|Hgt]; [now left|].
    right. split; [lia|]. apply (oversized_piece text chunk_size b H). lia.
  - right. left. split; [exact Hov|].
    destruct i as [|j]; [discriminate|].
    exists j, prev, p. now repeat split.
  - right. right. exact H.
Qed.

(** The second chunk of this text is built at a flush: five characters
    of the first buffer, a paragraph break and the second paragraph. *)
Lemma chunk_text_size_witness :
  let text := lit "Hello you." ++ nn ++ lit "How are you?" in
  let c := lit "you." ++ nn ++ lit "How are you?" in
  exists b,
    nth_error (chunk_buffers text 12 5) 1 = Some b
    /\ c = strip b
    /\ ((b = c /\ In c (pieces text 12)
         /\ (len c <= 12
             \/ (12 < len c
                 /\ exists para,
                      In para (paragraphs text) /\ 12 < len para
                      /\ In c (re_split_sentences para))))
        \/ (0 < 5
            /\ exists j prev p,
                 1%nat = S j
                 /\ nth_error (chunk_buffers text 12 5) j = Some prev
                 /\ In p (pieces text 12)
                 /\ b = tail_slice 5 prev ++ nn ++ p)
        \/ (exists b0 p,
              b0 <> [] /\ In p (pieces text 12)
              /\ b = b0 ++ nn ++ p
              /\ len b0 + len p <= 12)).
Proof.
  intros text c.
  apply (chunk_text_size text 12 5 1 c); [lia | lia | reflexivity].
Defined.

(** Two chunks longer than [chunk_size] that are not a single piece:
    the two five-character paragraphs of [hello_world] pass the size
    test for [chunk_size = 10] and come back as one chunk of twelve
    characters; with [chunk_size = 12] and [chunk_overlap = 5] the
    second chunk of the other text has eighteen characters, the overlap
    included. *)
Lemma chunk_text_exceeds_chunk_size :
  ~ (forall c, In c (chunk_text hello_world 10 0) ->
       len c <= 10 \/ (10 < len c /\ In c (pieces hello_world 10)))
  /\ ~ (forall c,
          In c (chunk_text (lit "Hello you." ++ nn ++ lit "How are you?")
                  12 5) ->
          len c <= 12
          \/ (12 < len c
              /\ In c (pieces (lit "Hello you." ++ nn ++ lit "How are you?")
                         12))).
Proof.
  split.
  - intros H. destruct (H hello_world) as [Hle | [_ Hin]].
    + now left.
    + vm_compute in Hle. apply Hle. reflexivity.
    + vm_compute in Hin. destruct Hin as [E | [E | []]]; discriminate E.
  - intros H.
    destruct (H (lit "you." ++ nn ++ lit "How are you?")) as [Hle | [_ Hin]].
    + right. now left.
    + vm_compute in Hle. apply Hle. reflexivity.
    + vm_compute in Hin. destruct Hin as [E | [E | []]]; discriminate E.
Qed.

End ChunkSizes.

(** ** Oversized sentences *)

Section Oversized.

Variables chunk_size chunk_overlap : Z.

Abbreviation emit_here := (emit chunk_size chunk_overlap).
Abbreviation next_here := (next_buffer chunk_size chunk_overlap).

Lemma flushes_oversized (cur p : str) :
  chunk_size < len p -> cur <> [] -> flushes chunk_size cur p = true.
Proof.
  intros Hp Hcur. unfold flushes. apply andb_true_intro. split.
  - apply Z.gtb_lt. pose proof (len_nonneg cur). lia.
  - destruct cur; [contradiction | reflexivity].
Qed.

(** A buffer over budget is flushed by the next piece, or is the last:
    either way it is the first buffer to come out. *)
Lemma oversized_head (ps : list str) (b : str) :
  0 <= chunk_size -> chunk_size < len b ->
  exists more, emit_here ps b = b :: more.
Proof.
  intros Hcs Hb. destruct ps as [|q r].
  - now exists [].
  - rewrite emit_cons.
    assert (Hf : flushes chunk_size b q = true).
    { unfold flushes. apply andb_true_intro. split.
      - apply Z.gtb_lt. pose proof (len_nonneg q). lia.
      - destruct b; [|reflexivity]. unfold len in Hb. simpl in Hb. lia. }
    rewrite Hf. eexists. reflexivity.
Qed.

Lemma next_nonempty (cur q : str) : q <> [] -> next_here cur q <> [].
Proof.
  intros Hq. rewrite next_buffer_eq.
  destruct (flushes chunk_size cur q), (chunk_overlap >? 0), (truthy cur);
    try exact Hq; intros E; apply app_eq_nil in E as [_ E];
    apply app_eq_nil in E as [_ E]; contradiction.
Qed.

(** The buffer an oversized piece enters: the piece alone when the
    buffer was empty or there is no overlap, otherwise the tail of the
    buffer it flushes, a paragraph break and the piece. *)
Lemma oversized_enters (cur p : str) :
  chunk_size < len p ->
  (cur = [] \/ chunk_overlap <= 0 -> next_here cur p = p)
  /\ (cur <> [] -> 0 < chunk_overlap ->
      next_here cur p = tail_slice chunk_overlap cur ++ nn ++ p)
  /\ len p <= len (next_here cur p).
Proof.
  intros Hp. rewrite next_buffer_eq.
  destruct cur as [|c cur].
  - unfold flushes. cbn [truthy]. rewrite andb_false_r.
    split; [reflexivity|]. split; [|lia]. intros H. now destruct H.
  - rewrite (flushes_oversized (c :: cur) p Hp) by discriminate.
    destruct (chunk_overlap >? 0) eqn:Hov.
    + apply Z.gtb_lt in Hov. split; [|split].
      * intros [E|H]; [discriminate | lia].
      * reflexivity.
      * rewrite !len_app.
        pose proof (len_nonneg (tail_slice chunk_overlap (c :: cur))).
        pose proof (len_nonneg nn). lia.
    + assert (chunk_overlap <= 0).
      { destruct (Z_le_gt_dec chunk_overlap 0) as [H|H]; [exact H|].
        apply Z.gtb_gt in H. congruence. }
      split; [reflexivity|]. split; [lia | lia].
Qed.

(** Where the buffer of an oversized piece comes out: right after the
    buffer it flushed. *)
Lemma oversized_position (p : str) :
  0 <= chunk_size -> chunk_size < len p ->
  forall ps, Forall (fun q => q <> []) ps ->
  forall k cur,
    nth_error ps k = Some p ->
    exists i b,
      nth_error (emit_here ps cur) i = Some b
      /\ ((cur = [] /\ k = 0%nat) \/ chunk_overlap <= 0 -> b = p)
      /\ (cur <> [] \/ (0 < k)%nat -> 0 < chunk_overlap ->
          exists j prev,
            i = S j /\ nth_error (emit_here ps cur) j = Some prev
            /\ b = tail_slice chunk_overlap prev ++ nn ++ p).
Proof.
  intros Hcs Hp ps Hps. induction Hps as [|q r Hq Hr IH]; intros k cur Hk;
    [destruct k; discriminate|].
  destruct k as [|k].
  - injection Hk as ->.
    destruct (oversized_enters cur p Hp) as (Halone & Hseed & Hlen).
    destruct (oversized_head r (next_here cur p) Hcs ltac:(lia)) as (more & E).
    rewrite emit_cons, E. destruct cur as [|c cur].
    + unfold flushes. cbn [truthy]. rewrite andb_false_r.
      exists 0%nat, (next_here [] p). split; [reflexivity|]. split.
      * intros _. apply Halone. now left.
      * intros [H|H]; [contradiction | lia].
    + rewrite (flushes_oversized (c :: cur) p Hp) by discriminate.
      exists 1%nat, (next_here (c :: cur) p). split; [reflexivity|]. split.
      * intros [[H _]|H]; [discriminate|]. apply Halone. now right.
      * intros _ Hov. exists 0%nat, (c :: cur).
        split; [reflexivity|]. split; [reflexivity|].
        apply Hseed; [discriminate | exact Hov].
  - cbn [nth_error] in Hk.
    destruct (IH k (next_here cur q) Hk) as (i & b & Hi & Halone & Hseed).
    pose proof (next_nonempty cur q Hq) as Hne.
    assert (Hal : chunk_overlap <= 0 -> b = p).
    { intros H. apply Halone. now right. }
    assert (Hsd : 0 < chunk_overlap ->
                  exists j prev,
                    i = S j
                    /\ nth_error (emit_here r (next_here cur q)) j = Some prev
                    /\ b = tail_slice chunk_overlap prev ++ nn ++ p).
    { apply Hseed. now left. }
    rewrite emit_cons. destruct (flushes chunk_size cur q).
    + exists (S i), b. split; [exact Hi|]. split.
      * intros [[_ H]|H]; [discriminate | now apply Hal].
      * intros _ Hov. destruct (Hsd Hov) as (j & prev & -> & Hj & E).
        exists (S j), prev. now repeat split.
    + exists i, b. split; [exact Hi|]. split.
      * intros [[_ H]|H]; [discriminate | now apply Hal].
      * intros _ Hov. exact (Hsd Hov).
Qed.

End Oversized.

Section OversizedSentences.

Lemma pieces_nonempty (text : str) (chunk_size : Z) :
  Forall (fun q => q <> []) (pieces text chunk_size).
Proof.
  pose proof (pieces_trimmed text chunk_size) as H.
  eapply Forall_impl; [|exact H]. cbv beta. intros q Hq.
  unfold trimmed in Hq. apply andb_prop in Hq as [Hq _].
  now apply solid_nonempty.
Qed.

(** C4, as the code behaves: a sentence longer than [chunk_size] is a
    piece, and wherever it stands among the pieces it comes back whole
    in the chunk of a buffer that holds no other piece.  When it is the
    first piece or [chunk_overlap = 0] the buffer, and the chunk, is
    exactly the sentence.  Otherwise the buffer is the last
    [chunk_overlap] characters of the buffer emitted just before it, a
    paragraph break and the sentence, and the chunk is that buffer
    stripped. *)
Theorem oversized_sentence_kept (text : str) (chunk_size chunk_overlap : Z)
    (para p : str) :
  0 < chunk_size -> 0 <= chunk_overlap ->
  In para (paragraphs text) -> In p (re_split_sentences para) ->
  chunk_size < len p ->
  (exists k, nth_error (pieces text chunk_size) k = Some p)
  /\ forall k,
       nth_error (pieces text chunk_size) k = Some p ->
       exists i b,
         nth_error (chunk_buffers text chunk_size chunk_overlap) i = Some b
         /\ nth_error (chunk_text text chunk_size chunk_overlap) i
            = Some (strip b)
         /\ (k = 0%nat \/ chunk_overlap = 0 -> b = p /\ strip b = p)
         /\ ((0 < k)%nat -> 0 < chunk_overlap ->
             exists j prev,
               i = S j
               /\ nth_error (chunk_buffers text chunk_size chunk_overlap) j
                  = Some prev
               /\ b = tail_slice chunk_overlap prev ++ nn ++ p).
Proof.
  intros Hcs _ Hpara Hsent Hp.
  pose proof (oversized_sentence_piece text chunk_size para p Hpara Hsent Hp)
    as Hin.
  split; [now apply In_nth_error|].
  intros k Hk.
  pose proof (pieces_trimmed text chunk_size) as Ht.
  rewrite Forall_forall in Ht. pose proof (Ht p Hin) as Htp.
  destruct (oversized_position chunk_size chunk_overlap p ltac:(lia) Hp
              (pieces text chunk_size) (pieces_nonempty text chunk_size)
              k [] Hk) as (i & b & Hi & Halone & Hseed).
  assert (E : chunk_buffers text chunk_size chunk_overlap
              = emit chunk_size chunk_overlap (pieces text chunk_size) []).
  { rewrite chunk_buffers_emit.
    destruct (pieces text chunk_size) as [|q r]; [destruct Hin|].
    symmetry. apply emit_first. }
  exists i, b. rewrite chunk_text_buffers, nth_error_map, E, Hi.
  split; [reflexivity|]. split; [reflexivity|]. split.
  - intros H.
    assert (b = p) as ->.
    { apply Halone. destruct H as [H|H]; [left; now split | right; lia]. }
    split; [reflexivity | now apply strip_trimmed].
  - intros H Hov. apply Hseed; [now right | exact Hov].
Qed.

(** The sentence [cdefghij] is longer than [chunk_size = 5]; with
    [chunk_overlap = 2] its buffer starts with the tail [ab] of the
    buffer before it. *)
Lemma oversized_sentence_kept_witness :
  let text := lit "ab" ++ nn ++ lit "cdefghij" in
  let p := lit "cdefghij" in
  In p (paragraphs text)
  /\ In p (re_split_sentences p)
  /\ 5 < len p
  /\ (exists k, nth_error (pieces text 5) k = Some p)
  /\ forall k,
       nth_error (pieces text 5) k = Some p ->
       exists i b,
         nth_error (chunk_buffers text 5 2) i = Some b
         /\ nth_error (chunk_text text 5 2) i = Some (strip b)
         /\ (k = 0%nat \/ 2 = 0 -> b = p /\ strip b = p)
         /\ ((0 < k)%nat -> 0 < 2 ->
             exists j prev,
               i = S j
               /\ nth_error (chunk_buffers text 5 2) j = Some prev
               /\ b = tail_slice 2 prev ++ nn ++ p).
Proof.
  assert (Hpara : In (lit "cdefghij")
                    (paragraphs (lit "ab" ++ nn ++ lit "cdefghij")))
    by (right; now left).
  assert (Hsent : In (lit "cdefghij") (re_split_sentences (lit "cdefghij")))
    by (now left).
  assert (Hlen : 5 < len (lit "cdefghij")) by reflexivity.
  split; [exact Hpara|]. split; [exact Hsent|]. split; [exact Hlen|].
  apply (oversized_sentence_kept (lit "ab" ++ nn ++ lit "cdefghij") 5 2
           (lit "cdefghij") (lit "cdefghij"));
    [lia | lia | exact Hpara | exact Hsent | exact Hlen].
Defined.

(** With [chunk_overlap = 2] the same sentence is not a chunk of its
    own: its chunk starts with the overlap [ab]. *)
Lemma oversized_sentence_not_alone :
  let text := lit "ab" ++ nn ++ lit "cdefghij" in
  In (lit "cdefghij") (paragraphs text)
  /\ In (lit "cdefghij") (re_split_sentences (lit "cdefghij"))
  /\ 5 < len (lit "cdefghij")
  /\ chunk_text text 5 2 = [lit "ab"; lit "ab" ++ nn ++ lit "cdefghij"]
  /\ ~ In (lit "cdefghij") (chunk_text text 5 2).
Proof.
  intros text. split; [right; now left|]. split; [now left|].
  split; [reflexivity|]. split; [reflexivity|].
  intros [E | [E | []]]; discriminate E.
Qed.

End OversizedSentences.

(** ** The overlap *)

Section Overlap.

Variables chunk_size chunk_overlap : Z.

(** The first buffer emitted from a non-empty [current_chunk] starts
    with it. *)
Lemma emit_head (ps : list str) :
  forall cur, truthy cur = true ->
    exists rest more,
      emit chunk_size chunk_overlap ps cur = (cur ++ rest) :: more.
Proof.
  induction ps as [|q r IH]; intros cur Hcur.
  - exists [], []. rewrite emit_nil. now rewrite app_nil_r.
  - rewrite emit_cons. destruct (flushes chunk_size cur q) eqn:Hf.
    + exists [], (emit chunk_size chunk_overlap r
                    (next_buffer chunk_size chunk_overlap cur q)).
      now rewrite app_nil_r.
    + rewrite next_buffer_eq, Hf, Hcur.
      destruct (IH (cur ++ nn ++ q)) as (rest & more & E).
      { destruct cur; [discriminate | reflexivity]. }
      exists ((nn ++ q) ++ rest), more. rewrite E.
      now rewrite <- !app_assoc.
Qed.

(** Two consecutive buffers: the second one was seeded from the first. *)
Lemma emit_consecutive (ps : list str) :
  0 < chunk_overlap ->
  forall cur i b b',
    nth_error (emit chunk_size chunk_overlap ps cur) i = Some b ->
    nth_error (emit chunk_size chunk_overlap ps cur) (S i) = Some b' ->
    exists piece rest,
      In piece ps
      /\ b' = tail_slice chunk_overlap b ++ nn ++ piece ++ rest.
Proof.
  intros Hov. induction ps as [|q r IH]; intros cur i b b' Hb Hb'.
  - rewrite emit_nil in Hb'. simpl in Hb'. destruct i; discriminate.
  - rewrite emit_cons in Hb, Hb'.
    assert (Hrest : forall j,
      nth_error (emit chunk_size chunk_overlap r
                   (next_buffer chunk_size chunk_overlap cur q)) j = Some b ->
      nth_error (emit chunk_size chunk_overlap r
                   (next_buffer chunk_size chunk_overlap cur q)) (S j)
        = Some b' ->
      exists piece rest,
        In piece (q :: r)
        /\ b' = tail_slice chunk_overlap b ++ nn ++ piece ++ rest).
    { intros j Hj Hj'. destruct (IH _ _ _ _ Hj Hj') as (piece & rest & Hp & E).
      exists piece, rest. split; [now right | exact E]. }
    destruct (flushes chunk_size cur q) eqn:Hf; [|now apply (Hrest i)].
    destruct i as [|j]; [|now apply (Hrest j)].
    simpl in Hb, Hb'. injection Hb as <-.
    rewrite next_buffer_eq, Hf in Hb'.
    apply Z.gtb_lt in Hov. rewrite Hov in Hb'.
    destruct (emit_head r (tail_slice chunk_overlap cur ++ nn ++ q))
      as (rest & more & E).
    { destruct (tail_slice chunk_overlap cur); reflexivity. }
    rewrite E in Hb'. simpl in Hb'. injection Hb' as <-.
    exists q, rest. split; [now left|].
    now rewrite <- !app_assoc.
Qed.

(** On a chunk long enough, the slice is the same before and after
    [strip]. *)
Lemma tail_slice_strip (b : str) :
  ends_solid b = true -> chunk_overlap <= len (strip b) ->
  tail_slice chunk_overlap (strip b) = tail_slice chunk_overlap b.
Proof.
  intros He. rewrite (strip_ends_solid _ He).
  destruct (lstrip_split b) as (w & Hw & _).
  remember (lstrip b) as t eqn:Et. clear Et. subst b.
  unfold tail_slice, len. intros Hlen.
  rewrite skipn_app, length_app.
  rewrite (@skipn_all2 _ _ w) by lia. simpl. f_equal. lia.
Qed.

End Overlap.

Section OverlapCarried.

Lemma chunk_buffers_ends_solid (text : str) (chunk_size chunk_overlap : Z) :
  Forall (fun b => ends_solid b = true)
    (chunk_buffers text chunk_size chunk_overlap).
Proof.
  rewrite chunk_buffers_emit.
  pose proof (pieces_trimmed text chunk_size) as Hps.
  destruct (pieces text chunk_size) as [|p r]; [constructor|].
  inversion Hps as [|? ? Hp Hr]; subst.
  unfold trimmed in Hp. apply andb_prop in Hp as [_ Hp].
  now apply emit_ends_solid.
Qed.

(** C5, as the code behaves: the buffer of chunk [i+1] starts with the
    last [chunk_overlap] characters of the buffer of chunk [i] (all of it
    when it is shorter), then a paragraph break, then the new piece.
    These are the last [chunk_overlap] characters of chunk [i] itself
    when chunk [i] has that many characters. *)
Theorem overlap_carried (text : str) (chunk_size chunk_overlap : Z)
    (i : nat) (c c' : str) :
  0 < chunk_overlap ->
  nth_error (chunk_text text chunk_size chunk_overlap) i = Some c ->
  nth_error (chunk_text text chunk_size chunk_overlap) (S i) = Some c' ->
  exists b b' piece rest,
    nth_error (chunk_buffers text chunk_size chunk_overlap) i = Some b
    /\ nth_error (chunk_buffers text chunk_size chunk_overlap) (S i) = Some b'
    /\ c = strip b /\ c' = strip b'
    /\ In piece (pieces text chunk_size)
    /\ b' = tail_slice chunk_overlap b ++ nn ++ piece ++ rest
    /\ (chunk_overlap <= len c ->
        tail_slice chunk_overlap c = tail_slice chunk_overlap b).
Proof.
  intros Hov Hc Hc'. rewrite chunk_text_buffers in Hc, Hc'.
  rewrite nth_error_map in Hc, Hc'.
  destruct (nth_error (chunk_buffers text chunk_size chunk_overlap) i)
    as [b|] eqn:Hb; [|discriminate].
  destruct (nth_error (chunk_buffers text chunk_size chunk_overlap) (S i))
    as [b'|] eqn:Hb'; [|discriminate].
  simpl in Hc, Hc'. injection Hc as <-. injection Hc' as <-.
  pose proof (chunk_buffers_ends_solid text chunk_size chunk_overlap) as Hsolid.
  rewrite Forall_forall in Hsolid.
  pose proof (Hsolid b (nth_error_In _ _ Hb)) as Hbs.
  rewrite chunk_buffers_emit in Hb, Hb'.
  destruct (pieces text chunk_size) as [|p r] eqn:Hps.
  { destruct i; discriminate. }
  destruct (emit_consecutive chunk_size chunk_overlap r Hov p i b b' Hb Hb')
    as (piece & rest & Hin & E).
  exists b, b', piece, rest.
  repeat split; auto.
  - now right.
  - intros Hlen. now apply tail_slice_strip.
Qed.

Lemma overlap_carried_witness :
  let text := lit "One two. Three four! Five" ++ nn ++ lit "six seven." in
  exists b b' piece rest,
    nth_error (chunk_buffers text 12 5) 1 = Some b
    /\ nth_error (chunk_buffers text 12 5) 2 = Some b'
    /\ lit "two." ++ nn ++ lit "Three four!" = strip b
    /\ lit "four!" ++ nn ++ lit "Five" = strip b'
    /\ In piece (pieces text 12)
    /\ b' = tail_slice 5 b ++ nn ++ piece ++ rest
    /\ (5 <= len (lit "two." ++ nn ++ lit "Three four!") ->
        tail_slice 5 (lit "two." ++ nn ++ lit "Three four!")
        = tail_slice 5 b).
Proof.
  intros text.
  apply (overlap_carried text 12 5 1); [lia | reflexivity | reflexivity].
Defined.


(** The paragraph [a          b] has twelve characters; its last eleven
    seed the second buffer with ten leading blanks, so the second chunk
    [b\n\nc] is shorter than its buffer and shorter than the overlap.
    The third buffer starts with seven blanks, not with the second
    chunk. *)
Lemma overlap_of_chunk_not_carried :
  nth_error (chunk_text blank_run 12 11) 1 = Some (lit "b" ++ nn ++ lit "c")
  /\ nth_error (chunk_text blank_run 12 11) 2
     = Some (lit "b" ++ nn ++ lit "c" ++ nn ++ lit "d")
  /\ nth_error (chunk_buffers blank_run 12 11) 2
     = Some (lit "       b" ++ nn ++ lit "c" ++ nn ++ lit "d")
  /\ ~ exists rest,
         lit "       b" ++ nn ++ lit "c" ++ nn ++ lit "d"
         = tail_slice 11 (lit "b" ++ nn ++ lit "c") ++ rest.
Proof.
  repeat split; try reflexivity.
  intros (rest & E). vm_compute in E. discriminate E.
Qed.

End OverlapCarried.

(** ** Operations on the external services *)

Import Services.
Local Open Scope op_scope.

Section Events.

Lemma failures_app (a b : list event) :
  failures (a ++ b) = failures a ++ failures b.
Proof.
  induction a as [|ev a IH]; simpl; [reflexivity|].
  destruct (failure_of ev); simpl; now rewrite IH.
Qed.

Lemma generation_calls_app (a b : list event) :
  generation_calls (a ++ b) = generation_calls a ++ generation_calls b.
Proof. apply filter_app. Qed.

Lemma yielded_app (a b : list event) :
  yielded (a ++ b) = yielded a ++ yielded b.
Proof.
  induction a as [|[R c r|token] a IH]; simpl; [reflexivity | exact IH |].
  now rewrite IH.
Qed.

(** The events of [search]: one call to the Embedding Client, then, if
    it answered, one call to the Index Store. *)
Lemma search_events (query : str) (top_k : Z) (source_filter : option str)
    (w : world) (h : list event) :
  generation_calls (snd (search query top_k source_filter w h)) = []
  /\ yielded (snd (search query top_k source_filter w h)) = [].
Proof.
  unfold search, get_embedding, bind, invoke.
  destruct (w _ h (embeddings_create query)) as [v|e]; [|split; reflexivity].
  match goal with
  | |- context [w ?R ?h' ?c] => destruct (w R h' c); split; reflexivity
  end.
Qed.

End Events.

Section Propagation.

Lemma propagates_ret {A : Type} (a : A) : propagates (ret a).
Proof. intros w h. reflexivity. Qed.

Lemma propagates_invoke {R : Type} (c : call R) :
  (forall v, stream_failure c v = None) -> propagates (invoke c).
Proof.
  intros Hc w h. unfold invoke. simpl.
  destruct (w R h c) as [v|e]; simpl; [|reflexivity].
  now rewrite Hc.
Qed.

Lemma propagates_bind {A B : Type} (m : op A) (f : A -> op B) :
  propagates m -> (forall a, propagates (f a)) -> propagates (bind m f).
Proof.
  intros Hm Hf w h. unfold bind. specialize (Hm w h).
  destruct (m w h) as [[a|e] evs]; [|exact Hm].
  specialize (Hf a w (h ++ evs)).
  destruct (f a w (h ++ evs)) as [[b|e] evs'];
    rewrite failures_app, Hm, Hf; reflexivity.
Qed.

Lemma propagates_for_fold {A S : Type} (l : list A) (body : S -> A -> op S) :
  (forall acc x, propagates (body acc x)) ->
  forall acc, propagates (for_fold l acc body).
Proof.
  intros Hbody. induction l as [|x r IH]; intros acc; simpl.
  - apply propagates_ret.
  - apply propagates_bind; [apply Hbody | exact IH].
Qed.

Lemma propagates_for_each {A : Type} (l : list A) (body : A -> op unit) :
  (forall x, propagates (body x)) -> propagates (for_each l body).
Proof.
  intros Hbody. induction l as [|x r IH]; simpl.
  - apply propagates_ret.
  - apply propagates_bind; [apply Hbody | intros _; exact IH].
Qed.

Lemma propagates_yield (token : str) : propagates (yield token).
Proof. intros w h. reflexivity. Qed.

Lemma propagates_yield_content (chunk : stream_chunk) :
  propagates (yield_content chunk).
Proof.
  unfold yield_content. destruct (choices chunk) as [|[content|] r];
    try apply propagates_ret.
  destruct (truthy content); [apply propagates_yield | apply propagates_ret].
Qed.

Create HintDb propagation.

#[local] Hint Resolve propagates_ret propagates_yield propagates_yield_content
  : propagation.
#[local] Hint Extern 1 (propagates (invoke _)) =>
  apply propagates_invoke; reflexivity : propagation.
#[local] Hint Extern 2 (propagates (bind _ _)) =>
  apply propagates_bind; [|intros] : propagation.
#[local] Hint Extern 2 (propagates (for_fold _ _ _)) =>
  apply propagates_for_fold; intros : propagation.
#[local] Hint Extern 2 (propagates (for_each _ _)) =>
  apply propagates_for_each; intros : propagation.

Lemma propagates_get_embedding (text : str) : propagates (get_embedding text).
Proof. unfold get_embedding. auto with propagation. Qed.

Lemma propagates_get_embeddings_batch (texts : list str) :
  propagates (get_embeddings_batch texts).
Proof. unfold get_embeddings_batch. auto with propagation. Qed.

Lemma propagates_search (query : str) (top_k : Z)
    (source_filter : option str) :
  propagates (search query top_k source_filter).
Proof.
  unfold search. apply propagates_bind; [apply propagates_get_embedding|].
  intros v. auto with propagation.
Qed.

Lemma propagates_chat_completion (question context : str)
    (system_prompt : option str) :
  propagates (chat_completion question context system_prompt).
Proof. unfold chat_completion. auto with propagation. Qed.

Lemma yield_content_runs (chunk : stream_chunk) (w : world)
    (h : list event) :
  exists evs,
    yield_content chunk w h = (Returned tt, evs) /\ failures evs = [].
Proof.
  unfold yield_content.
  destruct (choices chunk) as [|[content|] r]; try (now eexists).
  destruct (truthy content); now eexists.
Qed.

(** The loop over the chunks of a stream only yields. *)
Lemma for_each_yield_content (chunks : list stream_chunk) :
  forall w h, exists evs,
    for_each chunks yield_content w h = (Returned tt, evs)
    /\ failures evs = [].
Proof.
  induction chunks as [|x r IH]; intros w h; [now eexists|].
  simpl. unfold bind.
  destruct (yield_content_runs x w h) as (evs & -> & Hevs).
  destruct (IH w (h ++ evs)) as (evs' & -> & Hevs').
  eexists. split; [reflexivity|].
  now rewrite failures_app, Hevs, Hevs'.
Qed.

(** A failure that ends the stream is raised once the tokens received
    before it have been yielded. *)
Lemma propagates_chat_completion_stream (question context : str)
    (system_prompt : option str) :
  propagates (chat_completion_stream question context system_prompt).
Proof.
  unfold chat_completion_stream.
  set (c := chat_completions_stream _ _).
  intros w h. unfold bind at 1. unfold invoke at 1. cbv zeta.
  destruct (w _ h c) as [[chunks failure]|e] eqn:Hw; [|reflexivity].
  cbn [fst snd]. unfold bind.
  destruct (for_each_yield_content chunks w
              (h ++ [Called c (Returned (chunks, failure))]))
    as (evs & -> & Hevs).
  destruct failure as [e|]; simpl; rewrite app_nil_r, Hevs; reflexivity.
Qed.

Lemma propagates_query (self : RAGPipeline) (question : str)
    (top_k_arg : option Z) :
  propagates (query self question top_k_arg).
Proof.
  unfold query. apply propagates_bind; [apply propagates_search|].
  intros [|r results]; [apply propagates_ret|].
  apply propagates_bind; [apply propagates_chat_completion|].
  intros answer. apply propagates_ret.
Qed.

Lemma propagates_query_stream (self : RAGPipeline) (question : str)
    (top_k_arg : option Z) :
  propagates (query_stream self question top_k_arg).
Proof.
  unfold query_stream. apply propagates_bind; [apply propagates_search|].
  intros [|r results]; [apply propagates_yield|].
  apply propagates_chat_completion_stream.
Qed.

Lemma propagates_index_documents (chunks : list Ids.chunk) :
  propagates (index_documents chunks).
Proof.
  unfold index_documents. destruct chunks as [|c r]; [apply propagates_ret|].
  apply propagates_bind; [apply propagates_get_embeddings_batch|].
  intros embeddings. auto with propagation.
Qed.

Lemma propagates_delete_file (blob_name : str) :
  propagates (delete_file blob_name).
Proof.
  unfold delete_file, get_container_client.
  apply propagates_bind; [|auto with propagation].
  apply propagates_bind; [auto with propagation|].
  intros present. destruct present; simpl; auto with propagation.
Qed.

(** [get_index_stats] always returns, with zeros when the call failed. *)
Lemma get_index_stats_returns (w : world) (h : list event) :
  exists s evs,
    get_index_stats w h = (Returned s, evs)
    /\ (failures evs <> [] ->
        s = {| stats_document_count := 0; storage_size_bytes := 0 |}).
Proof.
  unfold get_index_stats, try_except, bind, invoke.
  destruct (w _ h get_index_statistics) as [v|e]; simpl.
  - do 2 eexists. split; [reflexivity|]. intros H. now destruct H.
  - do 2 eexists. split; [reflexivity|]. reflexivity.
Qed.

Lemma propagates_get_container_client : propagates get_container_client.
Proof.
  unfold get_container_client. apply propagates_bind; [auto with propagation|].
  intros present. destruct present; simpl; auto with propagation.
Qed.

Lemma propagates_vector_search_only (q : str) (k : Z) :
  propagates (vector_search_only q k).
Proof.
  unfold vector_search_only.
  apply propagates_bind; [apply propagates_get_embedding|].
  intros v. auto with propagation.
Qed.

Lemma propagates_create_index (index_name : str) :
  propagates (create_index index_name).
Proof. unfold create_index. auto with propagation. Qed.

Lemma propagates_delete_index (index_name : str) :
  propagates (delete_index index_name).
Proof. unfold delete_index. auto with propagation. Qed.

Lemma propagates_setup (self : RAGPipeline) (index_name : str) :
  propagates (Ingest.setup self index_name).
Proof.
  unfold Ingest.setup.
  apply propagates_bind; [apply propagates_create_index|].
  intros _. apply propagates_ret.
Qed.

Lemma propagates_list_files (round_kb : Z -> float) :
  propagates (list_files round_kb).
Proof.
  unfold list_files.
  apply propagates_bind; [apply propagates_get_container_client|].
  intros _. auto with propagation.
Qed.

Lemma propagates_download_file (name local_path : str) :
  propagates (download_file name local_path).
Proof.
  unfold download_file.
  apply propagates_bind; [apply propagates_get_container_client|].
  intros _. auto with propagation.
Qed.

(** *** Operations with errors of their own *)

Lemma lets_through_propagates {A : Type} (m : op A) :
  propagates m -> lets_through m.
Proof.
  intros H w h. specialize (H w h).
  destruct (m w h) as [[a|e] evs]; [exact H | now left].
Qed.

Lemma lets_through_ret {A : Type} (a : A) : lets_through (ret a).
Proof. intros w h. reflexivity. Qed.

Lemma lets_through_raise {A : Type} (e : exn) : lets_through (@raise A e).
Proof. intros w h. now right. Qed.

Lemma lets_through_bind {A B : Type} (m : op A) (f : A -> op B) :
  lets_through m -> (forall a, lets_through (f a)) -> lets_through (bind m f).
Proof.
  intros Hm Hf w h. unfold bind. specialize (Hm w h).
  destruct (m w h) as [[a|e] evs]; [|exact Hm].
  specialize (Hf a w (h ++ evs)).
  destruct (f a w (h ++ evs)) as [[b|e] evs'];
    rewrite failures_app, Hm; exact Hf.
Qed.

Lemma lets_through_for_fold {A S : Type} (l : list A)
    (body : S -> A -> op S) :
  (forall acc x, lets_through (body acc x)) ->
  forall acc, lets_through (for_fold l acc body).
Proof.
  intros Hbody. induction l as [|x r IH]; intros acc; simpl.
  - apply lets_through_ret.
  - apply lets_through_bind; [apply Hbody | exact IH].
Qed.

(** With the file there, [upload_file] has no error of its own. *)
Lemma propagates_upload_file (path : file_entry) (blob_name : option str) :
  entry_exists path = true -> propagates (upload_file path blob_name).
Proof.
  intros H. unfold upload_file. rewrite H. cbn [negb]. cbv zeta.
  apply propagates_bind; [apply propagates_get_container_client|].
  intros _. auto with propagation.
Qed.

Lemma lets_through_upload_file (path : file_entry)
    (blob_name : option str) :
  lets_through (upload_file path blob_name).
Proof.
  destruct (entry_exists path) eqn:H.
  - now apply lets_through_propagates, propagates_upload_file.
  - unfold upload_file. rewrite H. apply lets_through_raise.
Qed.

Lemma lets_through_upload_directory (local_dir : local_path) :
  lets_through (upload_directory local_dir).
Proof.
  unfold upload_directory.
  destruct (is_dir local_dir); cbn [negb]; [|apply lets_through_raise].
  apply lets_through_for_fold. intros uploaded file_path.
  destruct (str_in _ _); [|apply lets_through_ret].
  apply lets_through_bind; [apply lets_through_upload_file|].
  intros b. apply lets_through_ret.
Qed.

Lemma lets_through_process_directory (md5_hexdigest : str -> str)
    (fs : Loader.file_system) (directory : local_path)
    (chunk_size chunk_overlap : Z) :
  lets_through
    (Ingest.process_directory md5_hexdigest fs directory chunk_size
       chunk_overlap).
Proof.
  unfold Ingest.process_directory.
  destruct (is_dir directory); cbn [negb];
    [apply lets_through_ret | apply lets_through_raise].
Qed.

Lemma lets_through_ingest (self : RAGPipeline) (md5_hexdigest : str -> str)
    (fs : Loader.file_system) (source : local_path) (upload_to_blob : bool)
    (chunk_size chunk_overlap : Z) :
  lets_through
    (Ingest.ingest self md5_hexdigest fs source upload_to_blob chunk_size
       chunk_overlap).
Proof.
  unfold Ingest.ingest. apply lets_through_bind.
  - destruct upload_to_blob; [|apply lets_through_ret].
    destruct (is_dir source);
      (apply lets_through_bind;
       [|intros _; apply lets_through_ret]).
    + apply lets_through_upload_directory.
    + apply lets_through_upload_file.
  - intros _. apply lets_through_bind.
    + destruct (is_dir source);
        [apply lets_through_process_directory | apply lets_through_ret].
    + intros [|c r]; [apply lets_through_ret|].
      apply lets_through_propagates, propagates_index_documents.
Qed.

(** C8, as the code behaves: every operation of the Embedding Client,
    the Generation Client, the Index Store, the Blob Store and the
    pipeline lets every failure of an external service through: it
    returns only when no call failed and otherwise raises the exception
    of the failed call, unchanged, the only failure there was.
    [upload_file], [upload_directory], [process_directory] and
    [RAGPipeline.ingest], which look at the local path first, may also
    raise an error of their own before any call failed.  [get_index_stats] is the exception: it
    catches the failure of the statistics call and returns zero counts,
    as does [RAGPipeline.stats], which calls it. *)
Theorem failures_propagate_except_stats :
  (forall text, propagates (get_embedding text))
  /\ (forall texts, propagates (get_embeddings_batch texts))
  /\ (forall q k f, propagates (search q k f))
  /\ (forall q c p, propagates (chat_completion q c p))
  /\ (forall q c p, propagates (chat_completion_stream q c p))
  /\ (forall chunks, propagates (index_documents chunks))
  /\ (forall name, propagates (delete_file name))
  /\ (forall self q k, propagates (query self q k))
  /\ (forall self q k, propagates (query_stream self q k))
  /\ (forall self q k, propagates (search_only self q k))
  /\ (forall w h, exists s evs,
        get_index_stats w h = (Returned s, evs)
        /\ (failures evs <> [] ->
            s = {| stats_document_count := 0; storage_size_bytes := 0 |}))
  /\ (forall self w h, exists r evs,
        stats self w h = (Returned r, evs)
        /\ (failures evs <> [] -> r = (0, 0)))
  /\ (forall q k, propagates (vector_search_only q k))
  /\ (forall index_name, propagates (create_index index_name))
  /\ (forall index_name, propagates (delete_index index_name))
  /\ (forall self index_name, propagates (Ingest.setup self index_name))
  /\ (forall round_kb, propagates (list_files round_kb))
  /\ (forall name local_path, propagates (download_file name local_path))
  /\ (forall path blob_name,
        lets_through (upload_file path blob_name)
        /\ (entry_exists path = true ->
            propagates (upload_file path blob_name)))
  /\ (forall local_dir, lets_through (upload_directory local_dir))
  /\ (forall self md5_hexdigest fs source upload_to_blob chunk_size
        chunk_overlap,
        lets_through
          (Ingest.ingest self md5_hexdigest fs source upload_to_blob
             chunk_size chunk_overlap))
  /\ propagates get_container_client
  /\ (forall md5_hexdigest fs directory chunk_size chunk_overlap,
        lets_through
          (Ingest.process_directory md5_hexdigest fs directory chunk_size
             chunk_overlap)).
Proof.
  split; [apply propagates_get_embedding|].
  split; [apply propagates_get_embeddings_batch|].
  split; [apply propagates_search|].
  split; [apply propagates_chat_completion|].
  split; [apply propagates_chat_completion_stream|].
  split; [apply propagates_index_documents|].
  split; [apply propagates_delete_file|].
  split; [apply propagates_query|].
  split; [apply propagates_query_stream|].
  split; [intros self q k; apply propagates_search|].
  split; [apply get_index_stats_returns|].
  split.
  { intros self w h. unfold stats, bind.
    destruct (get_index_stats_returns w h) as (s & evs & -> & Hs).
    simpl. do 2 eexists. split; [reflexivity|].
    rewrite app_nil_r. intros Hf. now rewrite (Hs Hf). }
  split; [apply propagates_vector_search_only|].
  split; [apply propagates_create_index|].
  split; [apply propagates_delete_index|].
  split; [apply propagates_setup|].
  split; [apply propagates_list_files|].
  split; [apply propagates_download_file|].
  split.
  { intros path blob_name.
    split; [apply lets_through_upload_file | apply propagates_upload_file]. }
  split; [apply lets_through_upload_directory|].
  split; [apply lets_through_ingest|].
  split; [apply propagates_get_container_client|].
  apply lets_through_process_directory.
Qed.

(** With every service down, [get_index_stats] and [RAGPipeline.stats]
    return a normal result although the statistics call failed. *)
Lemma get_index_stats_swallows_failure :
  get_index_stats all_down []
  = (Returned {| stats_document_count := 0; storage_size_bytes := 0 |},
     [Called get_index_statistics (Raised service_unavailable)])
  /\ stats {| top_k := 5 |} all_down []
     = (Returned (0, 0),
        [Called get_index_statistics (Raised service_unavailable)])
  /\ ~ propagates get_index_stats.
Proof.
  split; [reflexivity|]. split; [reflexivity|].
  intros H. specialize (H all_down []). discriminate H.
Qed.

End Propagation.

(** ** Queries that find nothing *)

Section NoResults.

Variables (w : world) (h : list event).
Variables (self : RAGPipeline) (q : str) (top_k_arg : option Z).

(** C7: when the search step returns the empty list, [query] returns
    the fixed answer with no sources, and its events are those of the
    search: no call to the Generation Client was made. *)
Theorem query_no_results (evs : list event) :
  search q (chosen_top_k self top_k_arg) None w h
    = (Returned [], evs) ->
  query self q top_k_arg w h
    = (Returned {| question := q;
                   answer := no_information_found;
                   sources := [] |}, evs)
  /\ generation_calls evs = [].
Proof.
  intros Hs. split.
  - unfold query, bind. rewrite Hs. simpl. now rewrite app_nil_r.
  - pose proof (search_events q (chosen_top_k self top_k_arg) None w h)
      as [Hg _].
    rewrite Hs in Hg. exact Hg.
Qed.

(** C10: when the search step returns the empty list, [query_stream]
    yields the single fragment [no_information_found_stream] and ends;
    no call to the Generation Client was made.  The fragment is not the
    answer [query] gives in the same situation. *)
Theorem query_stream_no_results (evs : list event) :
  search q (chosen_top_k self top_k_arg) None w h
    = (Returned [], evs) ->
  query_stream self q top_k_arg w h
    = (Returned tt, evs ++ [Yielded no_information_found_stream])
  /\ yielded (evs ++ [Yielded no_information_found_stream])
     = [lit "I couldn't find any relevant information."]
  /\ generation_calls (evs ++ [Yielded no_information_found_stream]) = []
  /\ no_information_found_stream <> no_information_found.
Proof.
  intros Hs.
  pose proof (search_events q (chosen_top_k self top_k_arg) None w h)
    as [Hg Hy].
  rewrite Hs in Hg, Hy. simpl in Hg, Hy.
  repeat split.
  - unfold query_stream, bind. now rewrite Hs.
  - now rewrite yielded_app, Hy.
  - now rewrite generation_calls_app, Hg.
  - intros E. discriminate E.
Qed.

End NoResults.

Lemma query_no_results_witness :
  let evs :=
    [Called (embeddings_create (lit "What is ML?")) (Returned [1; 2; 3]);
     Called (search_client_search (lit "What is ML?") [1; 2; 3] 5 5 None)
       (Returned [])] in
  query {| top_k := 5 |} (lit "What is ML?") None empty_index []
    = (Returned {| question := lit "What is ML?";
                   answer := no_information_found;
                   sources := [] |}, evs)
  /\ generation_calls evs = [].
Proof.
  apply (query_no_results empty_index [] {| top_k := 5 |}
           (lit "What is ML?") None).
  reflexivity.
Defined.

Lemma query_stream_no_results_witness :
  let evs :=
    [Called (embeddings_create (lit "What is ML?")) (Returned [1; 2; 3]);
     Called (search_client_search (lit "What is ML?") [1; 2; 3] 3 3 None)
       (Returned [])] in
  query_stream {| top_k := 5 |} (lit "What is ML?") (Some 3) empty_index []
    = (Returned tt, evs ++ [Yielded no_information_found_stream])
  /\ yielded (evs ++ [Yielded no_information_found_stream])
     = [lit "I couldn't find any relevant information."]
  /\ generation_calls (evs ++ [Yielded no_information_found_stream]) = []
  /\ no_information_found_stream <> no_information_found.
Proof.
  apply (query_stream_no_results empty_index [] {| top_k := 5 |}
           (lit "What is ML?") (Some 3)).
  reflexivity.
Defined.

(** ** Chunk ids *)

Import Ids.

Section ChunkIds.



Variable md5_hexdigest : str -> str.

(** Every chunk of [process_document] carries the id computed from its
    own source, page, ordinal and content. *)
Lemma add_chunk_ids (source : str) (page : Z) (contents : list str) :
  forall all_chunks counter,
    Forall (fun c => id c = chunk_id md5_hexdigest (Ids.source c) (Ids.page c)
                              (chunk_index c) (content c)) all_chunks ->
    Forall (fun c => id c = chunk_id md5_hexdigest (Ids.source c) (Ids.page c)
                              (chunk_index c) (content c))
      (fst (fold_left (add_chunk md5_hexdigest source page) contents
              (all_chunks, counter))).
Proof.
  induction contents as [|x r IH]; intros all_chunks counter H; [exact H|].
  simpl. apply IH. apply Forall_app. split; [exact H|].
  constructor; [reflexivity | constructor].
Qed.

Lemma process_parts_ids (doc_parts : list doc_part)
    (chunk_size chunk_overlap : Z) :
  Forall (fun c => id c = chunk_id md5_hexdigest (Ids.source c) (Ids.page c)
                            (chunk_index c) (content c))
    (process_parts md5_hexdigest doc_parts chunk_size chunk_overlap).
Proof.
  unfold process_parts.
  assert (H : forall st,
    Forall (fun c => id c = chunk_id md5_hexdigest (Ids.source c) (Ids.page c)
                              (chunk_index c) (content c)) (fst st) ->
    Forall (fun c => id c = chunk_id md5_hexdigest (Ids.source c) (Ids.page c)
                              (chunk_index c) (content c))
      (fst (fold_left (process_part md5_hexdigest chunk_size chunk_overlap)
              doc_parts st))).
  { induction doc_parts as [|part r IH]; intros st Hst; [exact Hst|].
    simpl. apply IH. unfold process_part. destruct st as [all_chunks counter].
    now apply add_chunk_ids. }
  apply H. constructor.
Qed.



End ChunkIds.

(** *** How many ids there are *)

Section IdSpace.










End IdSpace.


(** ** More about the chunks *)

Import Readings.

Section ChunkShape.

Variables (text : str) (chunk_size chunk_overlap : Z).

Lemma nonws_nil_spaces (s : str) :
  nonws s = [] <-> forallb is_space s = true.
Proof.
  split; [|apply nonws_spaces].
  induction s as [|c s IH]; simpl; [reflexivity|].
  destruct (is_space c); simpl; [exact IH | discriminate].
Qed.

Lemma emit_not_nil (ps : list str) (cur : str) :
  emit chunk_size chunk_overlap ps cur <> [].
Proof. unfold emit. intros H. now apply app_eq_nil in H as [_ H]. Qed.

Lemma emit_length (ps : list str) :
  forall cur,
    (length (emit chunk_size chunk_overlap ps cur) <= S (length ps))%nat.
Proof.
  induction ps as [|p r IH]; intros cur; [rewrite emit_nil; simpl; lia|].
  rewrite emit_cons. specialize (IH (next_buffer chunk_size chunk_overlap cur p)).
  destruct (flushes chunk_size cur p); simpl; lia.
Qed.

(** X1: every chunk is non-empty and has no whitespace at either end. *)
Theorem chunks_are_trimmed (c : str) :
  In c (chunk_text text chunk_size chunk_overlap) ->
  c <> [] /\ strip c = c /\ trimmed c = true.
Proof.
  rewrite chunk_text_buffers. intros Hc.
  apply in_map_iff in Hc as (b & <- & Hb).
  pose proof (chunk_buffers_ends_solid text chunk_size chunk_overlap) as H.
  rewrite Forall_forall in H. specialize (H b Hb).
  pose proof (strip_is_trimmed b (truthy_strip_ends_solid b H)) as Ht.
  repeat split; [|now apply strip_trimmed | exact Ht].
  apply truthy_strip_ends_solid in H. intros E. rewrite E in H. discriminate.
Qed.

(** X2: the result is empty exactly when the text is blank. *)
Theorem no_chunks_iff_blank :
  chunk_text text chunk_size chunk_overlap = []
  <-> forallb is_space text = true.
Proof.
  rewrite <- nonws_nil_spaces, chunk_text_buffers, chunk_buffers_emit.
  split.
  - intros H. rewrite <- (nonws_pieces text chunk_size).
    destruct (pieces text chunk_size) as [|p r]; [reflexivity|].
    apply map_eq_nil in H. now apply emit_not_nil in H.
  - intros H. now rewrite (blank_pieces text chunk_size H).
Qed.

(** X3: there are at most as many chunks as pieces. *)
Theorem chunks_at_most_pieces :
  (length (chunk_text text chunk_size chunk_overlap)
   <= length (pieces text chunk_size))%nat.
Proof.
  rewrite chunk_text_buffers, chunk_buffers_emit, length_map.
  destruct (pieces text chunk_size) as [|p r]; [reflexivity|].
  apply emit_length.
Qed.

End ChunkShape.

Lemma chunks_are_trimmed_witness :
  let c := lit "two." ++ nn ++ lit "Three four!" in
  let text := lit " One two.  Three four! " in
  In c (chunk_text text 12 5)
  /\ c <> [] /\ strip c = c /\ trimmed c = true.
Proof.
  intros c text.
  assert (H : In c (chunk_text text 12 5)) by (right; now left).
  split; [exact H|]. apply (chunks_are_trimmed text 12 5 c H).
Defined.

(** ** Chunks as groups of pieces *)

Section Joins.

Lemma gtb_false (a b : Z) : a <= b -> (a >? b) = false.
Proof. intros H. rewrite Z.gtb_ltb. apply Z.ltb_ge, H. Qed.

Lemma join_cons (sep p q : str) (l : list str) :
  join sep (p :: q :: l) = p ++ sep ++ join sep (q :: l).
Proof. reflexivity. Qed.

Lemma join_snoc (sep p : str) (g : list str) :
  g <> [] -> join sep (g ++ [p]) = join sep g ++ sep ++ p.
Proof.
  induction g as [|a g IH]; intros Hg; [contradiction|].
  destruct g as [|b g]; [reflexivity|].
  specialize (IH ltac:(discriminate)). cbn [app] in *.
  rewrite (join_cons sep a b (g ++ [p])), IH, join_cons.
  now rewrite <- !app_assoc.
Qed.

Lemma len_join_cons (sep p : str) (l : list str) :
  l <> [] -> len (join sep (p :: l)) = len p + len sep + len (join sep l).
Proof.
  destruct l as [|q l]; [contradiction|]. intros _.
  rewrite join_cons, !len_app. lia.
Qed.

Lemma len_join_nonneg (sep : str) (l : list str) : 0 <= len (join sep l).
Proof. apply len_nonneg. Qed.

(** Joining more pieces never gives a shorter string. *)
Lemma len_join_prefix (sep : str) (g ps : list str) :
  len (join sep g) <= len (join sep (g ++ ps)).
Proof.
  induction g as [|a g IH]; [apply len_nonneg|].
  destruct g as [|b g].
  - destruct ps as [|q r]; [simpl; lia|].
    cbn [app]. rewrite (len_join_cons sep a (q :: r)) by discriminate.
    pose proof (len_nonneg sep). pose proof (len_join_nonneg sep (q :: r)).
    change (join sep [a]) with a. lia.
  - cbn [app] in *.
    rewrite (len_join_cons sep a (b :: g)) by discriminate.
    rewrite (len_join_cons sep a (b :: g ++ ps)) by discriminate. lia.
Qed.

Lemma len_join_member (sep p : str) (l : list str) :
  In p l -> len p <= len (join sep l).
Proof.
  induction l as [|a l IH]; intros Hin; [destruct Hin|].
  destruct l as [|b l].
  - destruct Hin as [->|[]]. simpl. lia.
  - rewrite len_join_cons by discriminate.
    pose proof (len_nonneg sep). pose proof (len_nonneg a).
    pose proof (len_join_nonneg sep (b :: l)).
    destruct Hin as [->|Hin]; [lia|]. specialize (IH Hin). lia.
Qed.

Lemma trimmed_len (p : str) : trimmed p = true -> 1 <= len p.
Proof.
  destruct p as [|c p]; [discriminate|]. intros _. rewrite len_cons.
  pose proof (len_nonneg p). lia.
Qed.

(** Trimmed pieces joined by blank lines make a trimmed string. *)
Lemma trimmed_join (g : list str) :
  g <> [] -> Forall (fun p => trimmed p = true) g ->
  trimmed (join nn g) = true.
Proof.
  induction g as [|a g IH]; intros Hg Hall; [contradiction|].
  inversion Hall as [|? ? Ha Hrest]; subst.
  destruct g as [|b g]; [exact Ha|].
  rewrite join_cons. specialize (IH ltac:(discriminate) Hrest).
  unfold trimmed in *.
  apply andb_prop in Ha as [Hs _]. apply andb_prop in IH as [_ He].
  apply andb_true_intro. split.
  - now apply starts_solid_app.
  - rewrite app_assoc. now apply ends_solid_app.
Qed.

End Joins.

Section Groups.

Variables chunk_size chunk_overlap : Z.

Lemma next_without_overlap (cur p : str) :
  chunk_overlap <= 0 -> flushes chunk_size cur p = true ->
  next_buffer chunk_size chunk_overlap cur p = p.
Proof.
  intros Hov Hf. rewrite next_buffer_eq, Hf.
  replace (chunk_overlap >? 0) with false; [reflexivity|].
  symmetry. apply gtb_false. lia.
Qed.

Lemma next_appends (g : list str) (p : str) :
  g <> [] -> Forall (fun q => trimmed q = true) g ->
  flushes chunk_size (join nn g) p = false ->
  next_buffer chunk_size chunk_overlap (join nn g) p = join nn (g ++ [p]).
Proof.
  intros Hg Hall Hf. rewrite next_buffer_eq, Hf, join_snoc by exact Hg.
  pose proof (trimmed_join g Hg Hall) as Ht.
  unfold trimmed in Ht. apply andb_prop in Ht as [_ Ht].
  now rewrite (truthy_ends_solid _ Ht).
Qed.

(** Without overlap the buffers are consecutive groups of pieces, each
    joined by blank lines. *)
Lemma emit_groups (ps : list str) :
  chunk_overlap <= 0 ->
  forall g,
    g <> [] -> Forall (fun q => trimmed q = true) (g ++ ps) ->
    exists groups,
      concat groups = g ++ ps
      /\ Forall (fun group => group <> []) groups
      /\ emit chunk_size chunk_overlap ps (join nn g) = map (join nn) groups.
Proof.
  intros Hov. induction ps as [|p r IH]; intros g Hg Hall.
  - exists [g]. rewrite emit_nil. simpl. rewrite !app_nil_r.
    repeat split. now constructor.
  - rewrite emit_cons.
    apply Forall_app in Hall as [Hgall Hps].
    inversion Hps as [|? ? Hp Hr]; subst.
    destruct (flushes chunk_size (join nn g) p) eqn:Hf.
    + rewrite (next_without_overlap _ _ Hov Hf).
      destruct (IH [p]) as (groups & Hc & Hne & He);
        [discriminate | now constructor|].
      exists (g :: groups). simpl. rewrite Hc.
      repeat split; [now constructor|]. f_equal. exact He.
    + rewrite (next_appends g p Hg Hgall Hf).
      destruct (IH (g ++ [p])) as (groups & Hc & Hne & He).
      * intros E. now apply app_eq_nil in E as [_ E].
      * rewrite <- app_assoc. apply Forall_app. split; [exact Hgall|].
        now constructor.
      * exists groups. rewrite Hc, <- app_assoc. now repeat split.
Qed.

(** Pieces that fit the budget together stay in one buffer. *)
Lemma emit_fits (ps : list str) :
  forall g,
    g <> [] -> Forall (fun q => trimmed q = true) (g ++ ps) ->
    len (join nn (g ++ ps)) <= chunk_size ->
    emit chunk_size chunk_overlap ps (join nn g) = [join nn (g ++ ps)].
Proof.
  induction ps as [|p r IH]; intros g Hg Hall Hlen.
  - rewrite emit_nil. now rewrite app_nil_r.
  - rewrite emit_cons.
    apply Forall_app in Hall as [Hgall Hps].
    inversion Hps as [|? ? Hp Hr]; subst.
    assert (Hf : flushes chunk_size (join nn g) p = false).
    { unfold flushes. apply andb_false_intro1.
      apply gtb_false.
      pose proof (len_join_prefix nn (g ++ [p]) r) as Hpre.
      rewrite <- app_assoc in Hpre. simpl in Hpre.
      rewrite (join_snoc nn p g Hg), !len_app, len_nn in Hpre. lia. }
    rewrite Hf, (next_appends g p Hg Hgall Hf).
    replace (g ++ p :: r) with ((g ++ [p]) ++ r) in *
      by (now rewrite <- app_assoc).
    apply IH; [|apply Forall_app; split|exact Hlen].
    + intros E. now apply app_eq_nil in E as [_ E].
    + apply Forall_app. split; [exact Hgall | now constructor].
    + exact Hr.
Qed.

(** With no budget and no overlap every piece is flushed by the next. *)
Lemma emit_each (ps : list str) :
  chunk_size <= 0 -> chunk_overlap <= 0 ->
  forall cur,
    Forall (fun q => trimmed q = true) (cur :: ps) ->
    emit chunk_size chunk_overlap ps cur = cur :: ps.
Proof.
  intros Hcs Hov. induction ps as [|p r IH]; intros cur Hall;
    [apply emit_nil|].
  inversion Hall as [|? ? Hcur Hps]; subst.
  inversion Hps as [|? ? Hp Hr]; subst.
  assert (Hf : flushes chunk_size cur p = true).
  { unfold flushes. apply andb_true_intro. split.
    - apply Z.gtb_lt. pose proof (trimmed_len _ Hcur).
      pose proof (len_nonneg p). lia.
    - destruct cur; [discriminate | reflexivity]. }
  rewrite emit_cons, Hf, (next_without_overlap _ _ Hov Hf).
  f_equal. now apply IH.
Qed.

End Groups.

Section GroupedChunks.

Variables (text : str) (chunk_size chunk_overlap : Z).

Lemma map_strip_trimmed (l : list str) :
  Forall (fun p => trimmed p = true) l -> map strip l = l.
Proof.
  induction 1 as [|p l Hp Hl IH]; [reflexivity|].
  simpl. now rewrite IH, (strip_trimmed _ Hp).
Qed.

Lemma concat_all_trimmed (groups : list (list str)) :
  Forall (fun p => trimmed p = true) (concat groups) ->
  Forall (fun group => group <> []) groups ->
  Forall (fun p => trimmed p = true) (map (join nn) groups).
Proof.
  induction groups as [|g groups IH]; intros Hall Hne; [constructor|].
  simpl in Hall. apply Forall_app in Hall as [Hg Hrest].
  inversion Hne; subst. constructor; [now apply trimmed_join | now apply IH].
Qed.

(** X4: with [chunk_overlap <= 0] the chunks are the pieces, in input
    order, cut into consecutive non-empty groups, each group joined by
    blank lines: nothing is reordered, repeated or dropped. *)
Theorem chunks_partition_pieces :
  chunk_overlap <= 0 ->
  exists groups,
    concat groups = pieces text chunk_size
    /\ Forall (fun group => group <> []) groups
    /\ chunk_text text chunk_size chunk_overlap = map (join nn) groups.
Proof.
  intros Hov. rewrite chunk_text_buffers, chunk_buffers_emit.
  pose proof (pieces_trimmed text chunk_size) as Hall.
  destruct (pieces text chunk_size) as [|p r]; [exists []; now repeat split|].
  destruct (emit_groups chunk_size chunk_overlap r Hov [p])
    as (groups & Hc & Hne & He); [discriminate | exact Hall|].
  exists groups. simpl join in He. rewrite He.
  repeat split; [exact Hc | exact Hne|].
  apply map_strip_trimmed, concat_all_trimmed; [|exact Hne].
  now rewrite Hc.
Qed.

(** X5: a text whose paragraphs, joined by blank lines, fit
    [chunk_size] comes back as one chunk: those paragraphs joined. *)
Theorem short_text_is_one_chunk :
  paragraphs text <> [] ->
  len (join nn (paragraphs text)) <= chunk_size ->
  chunk_text text chunk_size chunk_overlap = [join nn (paragraphs text)].
Proof.
  intros Hne Hlen.
  assert (Hpieces : pieces text chunk_size = paragraphs text).
  { unfold pieces.
    assert (H : forall l,
              (forall p, In p l -> len p <= chunk_size) ->
              flat_map (pieces_of chunk_size) l = l).
    { induction l as [|p l IH]; intros Hl; [reflexivity|].
      simpl. rewrite IH by (intros q Hq; apply Hl; now right).
      unfold pieces_of. replace (len p >? chunk_size) with false;
        [reflexivity|].
      symmetry. apply gtb_false, Hl. now left. }
    apply H. intros p Hp. pose proof (len_join_member nn p _ Hp). lia. }
  rewrite chunk_text_buffers, chunk_buffers_emit, Hpieces.
  pose proof (paragraphs_trimmed text) as Hall.
  destruct (paragraphs text) as [|p r]; [contradiction|].
  pose proof (emit_fits chunk_size chunk_overlap r [p]
                ltac:(discriminate) Hall Hlen) as E.
  change (join nn [p]) with p in E. cbn [app] in E. rewrite E.
  cbn [map]. f_equal. apply strip_trimmed, trimmed_join;
    [discriminate | exact Hall].
Qed.

(** X6: [chunk_size <= 0] is accepted; without overlap it makes every
    sentence of every paragraph a chunk of its own. *)
Theorem no_budget_one_sentence_per_chunk :
  chunk_size <= 0 -> chunk_overlap <= 0 ->
  chunk_text text chunk_size chunk_overlap
  = flat_map re_split_sentences (paragraphs text).
Proof.
  intros Hcs Hov.
  assert (Hpieces : pieces text chunk_size
                    = flat_map re_split_sentences (paragraphs text)).
  { unfold pieces. pose proof (paragraphs_trimmed text) as Hall.
    induction Hall as [|p l Hp Hl IH]; [reflexivity|].
    simpl. rewrite IH. f_equal. unfold pieces_of.
    replace (len p >? chunk_size) with true; [reflexivity|].
    symmetry. apply Z.gtb_lt. pose proof (trimmed_len _ Hp). lia. }
  rewrite chunk_text_buffers, chunk_buffers_emit, <- Hpieces.
  pose proof (pieces_trimmed text chunk_size) as Hall.
  destruct (pieces text chunk_size) as [|p r]; [reflexivity|].
  rewrite (emit_each chunk_size chunk_overlap r Hcs Hov p Hall).
  now apply map_strip_trimmed.
Qed.

End GroupedChunks.

Lemma chunks_partition_pieces_witness :
  exists groups,
    concat groups = pieces three_paragraphs 20
    /\ Forall (fun group => group <> []) groups
    /\ chunk_text three_paragraphs 20 0 = map (join nn) groups.
Proof. apply (chunks_partition_pieces three_paragraphs 20 0). lia. Defined.

Lemma short_text_is_one_chunk_witness :
  chunk_text three_paragraphs 33 50 = [join nn (paragraphs three_paragraphs)].
Proof.
  apply (short_text_is_one_chunk three_paragraphs 33 50).
  - discriminate.
  - vm_compute. discriminate.
Defined.

Lemma no_budget_one_sentence_per_chunk_witness :
  chunk_text (lit "One two. Three!" ++ nn ++ lit "Four") 0 0
  = flat_map re_split_sentences
      (paragraphs (lit "One two. Three!" ++ nn ++ lit "Four")).
Proof.
  apply (no_budget_one_sentence_per_chunk
           (lit "One two. Three!" ++ nn ++ lit "Four") 0 0); lia.
Defined.

(** ** Where sentences are cut *)

Section SentenceEnds.

Lemma ends_terminal_cons (c : ascii) (h : str) :
  ends_terminal h = true -> ends_terminal (c :: h) = true.
Proof.
  unfold ends_terminal. simpl. destruct (rev h) as [|d t]; [discriminate|].
  auto.
Qed.

Lemma re_split_from_ends (s : str) :
  forall st,
    match re_split_from st s with
    | [] => False
    | h :: t =>
        (t <> [] ->
         ends_terminal h = true \/ (h = [] /\ st = AfterTerminal))
        /\ Forall (fun p => ends_terminal p = true) (removelast t)
    end.
Proof.
  induction s as [|c r IH]; intros st.
  - simpl. split; [intros H; now destruct H | constructor].
  - assert (Hkeep :
      match cons_head c (re_split_from (scan_of c) r) with
      | [] => False
      | h :: t =>
          (t <> [] ->
           ends_terminal h = true \/ (h = [] /\ st = AfterTerminal))
          /\ Forall (fun p => ends_terminal p = true) (removelast t)
      end).
    { specialize (IH (scan_of c)).
      destruct (re_split_from (scan_of c) r) as [|h t]; [contradiction|].
      destruct IH as [Hh Ht]. cbn [cons_head]. split; [|exact Ht].
      intros Hne. left. destruct (Hh Hne) as [E|[-> E]].
      - now apply ends_terminal_cons.
      - unfold scan_of in E. unfold ends_terminal. simpl.
        destruct (is_terminal c); [reflexivity | discriminate]. }
    assert (Hgap :
      match re_split_from InGap r with
      | [] => False
      | h :: t =>
          (t <> [] -> ends_terminal h = true)
          /\ Forall (fun p => ends_terminal p = true) (removelast t)
      end).
    { specialize (IH InGap).
      destruct (re_split_from InGap r) as [|h t]; [contradiction|].
      destruct IH as [Hh Ht]. split; [|exact Ht].
      intros Hne. destruct (Hh Hne) as [E|[_ E]]; [exact E | discriminate]. }
    destruct st; simpl re_split_from; [exact Hkeep | |];
      destruct (is_space c); try exact Hkeep;
      destruct (re_split_from InGap r) as [|h t]; try contradiction;
      destruct Hgap as [Hh Ht].
    + split; [intros _; right; now split|].
      destruct t as [|h' t]; [constructor|].
      cbn [removelast]. constructor; [apply Hh; discriminate | exact Ht].
    + split; [intros Hne; left; now apply Hh | exact Ht].
Qed.

(** X7: the sentence split cuts only behind [.], [!] or [?]: every
    sentence but the last one of a paragraph ends with one of them. *)
Theorem sentences_end_terminal (para : str) :
  Forall (fun p => ends_terminal p = true)
    (removelast (re_split_sentences para)).
Proof.
  unfold re_split_sentences.
  pose proof (re_split_from_ends para Plain) as H.
  destruct (re_split_from Plain para) as [|h t]; [contradiction|].
  destruct H as [Hh Ht].
  destruct t as [|h' t]; [constructor|].
  cbn [removelast] in *. constructor; [|exact Ht].
  destruct (Hh ltac:(discriminate)) as [E|[_ E]]; [exact E | discriminate].
Qed.

End SentenceEnds.

(** ** The chunks of a document *)

Section DocumentChunks.

Variable md5_hexdigest : str -> str.
Variables chunk_size chunk_overlap : Z.

(** What a chunk keeps of its part. *)
Abbreviation origin :=
  (fun c : Ids.chunk => (Ids.content c, Ids.source c, Ids.page c)).

Abbreviation part_chunks :=
  (fun part : Ids.doc_part =>
     map (fun t => (t, Ids.part_source part, Ids.part_page part))
       (chunk_text (Ids.part_text part) chunk_size chunk_overlap)).

Lemma add_chunk_fold (source : str) (page : Z) (contents : list str) :
  forall all counter,
    counter = Z.of_nat (length all) ->
    map Ids.chunk_index all = map Z.of_nat (seq 0 (length all)) ->
    let st := fold_left (Ids.add_chunk md5_hexdigest source page) contents
                (all, counter) in
    snd st = Z.of_nat (length (fst st))
    /\ map Ids.chunk_index (fst st)
       = map Z.of_nat (seq 0 (length (fst st)))
    /\ map origin (fst st)
       = map origin all ++ map (fun t => (t, source, page)) contents.
Proof.
  induction contents as [|t r IH]; intros all counter Hc Hidx; cbv zeta.
  - simpl. rewrite app_nil_r. auto.
  - cbn [fold_left Ids.add_chunk].
    destruct (IH (all ++ [{| Ids.id := Ids.chunk_id md5_hexdigest source page
                                         counter t;
                             Ids.content := t;
                             Ids.source := source;
                             Ids.page := page;
                             Ids.chunk_index := counter |}]) (counter + 1))
      as (H1 & H2 & H3).
    + rewrite length_app. simpl. lia.
    + rewrite map_app, length_app, seq_app, map_app, Hidx. simpl.
      now rewrite Hc.
    + repeat split; [exact H1 | exact H2|].
      rewrite H3, map_app. simpl. now rewrite <- app_assoc.
Qed.

Lemma process_part_fold (doc_parts : list Ids.doc_part) :
  forall all counter,
    counter = Z.of_nat (length all) ->
    map Ids.chunk_index all = map Z.of_nat (seq 0 (length all)) ->
    let st := fold_left
                (Ids.process_part md5_hexdigest chunk_size chunk_overlap)
                doc_parts (all, counter) in
    map Ids.chunk_index (fst st)
    = map Z.of_nat (seq 0 (length (fst st)))
    /\ map origin (fst st)
       = map origin all ++ flat_map part_chunks doc_parts.
Proof.
  induction doc_parts as [|part r IH]; intros all counter Hc Hidx; cbv zeta.
  - simpl. rewrite app_nil_r. auto.
  - cbn [fold_left].
    change (Ids.process_part md5_hexdigest chunk_size chunk_overlap
              (all, counter) part)
      with (fold_left
              (Ids.add_chunk md5_hexdigest (Ids.part_source part)
                 (Ids.part_page part))
              (chunk_text (Ids.part_text part) chunk_size chunk_overlap)
              (all, counter)).
    pose proof (add_chunk_fold (Ids.part_source part) (Ids.part_page part)
                  (chunk_text (Ids.part_text part) chunk_size chunk_overlap)
                  all counter Hc Hidx) as H.
    cbv zeta in H.
    destruct (fold_left
                (Ids.add_chunk md5_hexdigest (Ids.part_source part)
                   (Ids.part_page part))
                (chunk_text (Ids.part_text part) chunk_size chunk_overlap)
                (all, counter)) as [all' counter'].
    cbn [fst snd] in H. destruct H as (H1 & H2 & H3).
    destruct (IH all' counter' H1 H2) as [H4 H5].
    split; [exact H4|].
    rewrite H5, H3. cbn [flat_map]. now rewrite <- app_assoc.
Qed.

(** X8: the ordinals of the chunks of a document are 0, 1, 2, ... in
    output order; the counter is not reset between parts (pages). *)
Theorem chunk_indices_consecutive (doc_parts : list Ids.doc_part) :
  map Ids.chunk_index
    (Ids.process_parts md5_hexdigest doc_parts chunk_size chunk_overlap)
  = map Z.of_nat
      (seq 0 (length (Ids.process_parts md5_hexdigest doc_parts
                        chunk_size chunk_overlap))).
Proof.
  unfold Ids.process_parts.
  apply (process_part_fold doc_parts [] 0); reflexivity.
Qed.

(** X9: the chunks of a document are the chunks of its parts, part
    after part and in the order [chunk_text] gives them, each with the
    source and the page of its part. *)
Theorem chunks_follow_parts (doc_parts : list Ids.doc_part) :
  map origin
    (Ids.process_parts md5_hexdigest doc_parts chunk_size chunk_overlap)
  = flat_map part_chunks doc_parts.
Proof.
  unfold Ids.process_parts.
  apply (process_part_fold doc_parts [] 0); reflexivity.
Qed.

End DocumentChunks.

(** ** Loading a PDF *)

Section PdfPages.

Import Loader.

Lemma load_pdf_from_spec (extracted : list (option str)) :
  forall i pg,
    In pg (load_pdf_from i extracted) <->
    exists k x,
      nth_error extracted k = Some x
      /\ page_number pg = i + Z.of_nat k
      /\ page_text pg = or_empty x
      /\ truthy (strip (or_empty x)) = true.
Proof.
  induction extracted as [|y r IH]; intros i pg.
  - simpl. split; [intros [] | intros (k & x & H & _)]. destruct k; discriminate.
  - cbn [load_pdf_from]. cbv zeta.
    assert (Hrest : In pg (load_pdf_from (i + 1) r) <->
              exists k x, nth_error (y :: r) (S k) = Some x
                /\ page_number pg = i + Z.of_nat (S k)
                /\ page_text pg = or_empty x
                /\ truthy (strip (or_empty x)) = true).
    { rewrite IH. split; intros (k & x & H1 & H2 & H3); exists k, x;
        (split; [exact H1|]); (split; [lia | exact H3]). }
    destruct (truthy (strip (or_empty y))) eqn:Hy.
    + split.
      * intros [<-|Hin].
        -- exists 0%nat, y. simpl. repeat split; [lia | exact Hy].
        -- apply Hrest in Hin as (k & x & H). now exists (S k), x.
      * intros ([|k] & x & H1 & H2 & H3 & H4).
        -- left. injection H1 as ->. destruct pg as [t n]. simpl in *.
           f_equal; [now symmetry | lia].
        -- right. apply Hrest. now exists k, x.
    + rewrite Hrest. split.
      * intros (k & x & H). now exists (S k), x.
      * intros ([|k] & x & H1 & H2 & H3 & H4).
        -- injection H1 as ->. congruence.
        -- now exists k, x.
Qed.

Lemma load_pdf_from_sorted (extracted : list (option str)) :
  forall i,
    Forall (fun pg => i <= page_number pg) (load_pdf_from i extracted)
    /\ StronglySorted Z.lt (map page_number (load_pdf_from i extracted)).
Proof.
  induction extracted as [|y r IH]; intros i; [split; constructor|].
  cbn [load_pdf_from]. cbv zeta. destruct (IH (i + 1)) as [Hlow Hsorted].
  assert (Hlow' : Forall (fun pg => i <= page_number pg)
                    (load_pdf_from (i + 1) r)).
  { eapply Forall_impl; [|exact Hlow]. simpl. intros pg H. lia. }
  destruct (truthy (strip (or_empty y))); [|now split].
  split; [constructor; [simpl; lia | exact Hlow']|].
  cbn [map page_number]. constructor; [exact Hsorted|].
  apply Forall_map. eapply Forall_impl; [|exact Hlow]. simpl. intros pg H. lia.
Qed.

(** X10: [load_pdf] keeps exactly the pages whose extracted text is not
    blank, each with its text and its position counted from 1, in
    increasing page order; a page without text is dropped. *)
Theorem load_pdf_keeps_nonblank_pages (extracted : list (option str)) :
  (forall pg,
      In pg (load_pdf extracted) <->
      exists k x,
        nth_error extracted k = Some x
        /\ page_number pg = 1 + Z.of_nat k
        /\ page_text pg = or_empty x
        /\ truthy (strip (or_empty x)) = true)
  /\ StronglySorted Z.lt (map page_number (load_pdf extracted)).
Proof.
  split; [intros pg; apply load_pdf_from_spec | apply load_pdf_from_sorted].
Qed.

Variable md5_hexdigest : str -> str.
Variable fs : file_system.
Variables (name : str) (chunk_size chunk_overlap : Z).

Lemma process_document_parts (suffix : str) :
  process_document md5_hexdigest fs name suffix chunk_size chunk_overlap
  = Ids.process_parts md5_hexdigest (load_document fs name suffix)
      chunk_size chunk_overlap.
Proof.
  unfold process_document.
  destruct (load_document fs name suffix); reflexivity.
Qed.

Lemma chunk_text_not_nil (text : str) :
  truthy (strip text) = true ->
  chunk_text text chunk_size chunk_overlap <> [].
Proof.
  intros Ht. rewrite chunk_text_buffers, chunk_buffers_emit. intros H.
  assert (Hps : pieces text chunk_size = []).
  { destruct (pieces text chunk_size) as [|p r]; [reflexivity|].
    apply map_eq_nil in H. now apply emit_not_nil in H. }
  pose proof (nonws_pieces text chunk_size) as Hn. rewrite Hps in Hn.
  simpl in Hn. symmetry in Hn. rewrite <- nonws_strip in Hn.
  apply strip_is_trimmed, trimmed_has_content in Ht. contradiction.
Qed.

Lemma flat_map_length_ge {A B : Type} (f : A -> list B) (l : list A) :
  Forall (fun a => f a <> []) l ->
  (length l <= length (flat_map f l))%nat.
Proof.
  induction 1 as [|a l Ha Hl IH]; [reflexivity|].
  simpl. rewrite length_app. destruct (f a); [contradiction|]. simpl. lia.
Qed.

(** X11: every chunk of a PDF carries the file name and the number of
    the page it was cut from, a page between 1 and the page count whose
    text is not blank; every such page gives at least one chunk: a
    chunk with the file name, the number of that page and content cut
    from its text. *)
Theorem pdf_chunks_carry_their_page :
  let chunks :=
    process_document md5_hexdigest fs name (lit ".pdf")
      chunk_size chunk_overlap in
  (length (load_pdf (pdf_extracted fs name)) <= length chunks)%nat
  /\ (forall k x,
        nth_error (pdf_extracted fs name) k = Some x ->
        truthy (strip (or_empty x)) = true ->
        exists c,
          In c chunks
          /\ Ids.source c = name
          /\ Ids.page c = 1 + Z.of_nat k
          /\ In (Ids.content c)
               (chunk_text (or_empty x) chunk_size chunk_overlap))
  /\ Forall
       (fun c =>
          Ids.source c = name
          /\ exists k x,
               nth_error (pdf_extracted fs name) k = Some x
               /\ Ids.page c = 1 + Z.of_nat k
               /\ truthy (strip (or_empty x)) = true
               /\ In (Ids.content c)
                    (chunk_text (or_empty x) chunk_size chunk_overlap))
       chunks.
Proof.
  cbv zeta. rewrite process_document_parts.
  change (load_document fs name (lit ".pdf"))
    with (map (fun p => {| Ids.part_text := page_text p;
                           Ids.part_source := name;
                           Ids.part_page := page_number p |})
            (load_pdf (pdf_extracted fs name))).
  set (parts := map _ (load_pdf (pdf_extracted fs name))).
  pose proof (process_part_fold md5_hexdigest chunk_size chunk_overlap
                parts [] 0 eq_refl eq_refl) as [_ Horigin].
  cbv zeta in Horigin. cbn [map app] in Horigin.
  fold (Ids.process_parts md5_hexdigest parts chunk_size chunk_overlap)
    in Horigin.
  split.
  - rewrite <- (length_map (fun c => (Ids.content c, Ids.source c, Ids.page c))).
    rewrite Horigin.
    replace (length (load_pdf (pdf_extracted fs name))) with (length parts)
      by (unfold parts; apply length_map).
    apply flat_map_length_ge. unfold parts. apply Forall_map, Forall_forall.
    intros pg Hpg. cbn [Ids.part_text].
    apply load_pdf_from_spec in Hpg as (k & x & _ & _ & Ht & Hx).
    intros E. apply map_eq_nil in E. revert E. apply chunk_text_not_nil.
    now rewrite Ht.
  - split.
    + intros k x Hk Hx.
      pose proof (chunk_text_not_nil (or_empty x) Hx) as Hne.
      destruct (chunk_text (or_empty x) chunk_size chunk_overlap)
        as [|t more] eqn:Hct; [contradiction|].
      assert (Hin : In (t, name, 1 + Z.of_nat k)
                      (map (fun c => (Ids.content c, Ids.source c, Ids.page c))
                         (Ids.process_parts md5_hexdigest parts chunk_size
                            chunk_overlap))).
      { rewrite Horigin. apply in_flat_map.
        exists {| Ids.part_text := or_empty x;
                  Ids.part_source := name;
                  Ids.part_page := 1 + Z.of_nat k |}.
        split.
        - unfold parts. apply in_map_iff.
          exists {| page_text := or_empty x;
                    page_number := 1 + Z.of_nat k |}.
          split; [reflexivity|]. apply load_pdf_from_spec.
          exists k, x. now repeat split.
        - cbn [Ids.part_text Ids.part_source Ids.part_page].
          rewrite Hct. now left. }
      apply in_map_iff in Hin as (c & E & Hc). injection E as E1 E2 E3.
      exists c. repeat split; [exact Hc | exact E2 | exact E3|].
      rewrite E1. now left.
    + apply Forall_forall. intros c Hc.
      apply (in_map (fun c => (Ids.content c, Ids.source c, Ids.page c))) in Hc.
      rewrite Horigin in Hc. apply in_flat_map in Hc as (part & Hpart & Hc).
      apply in_map_iff in Hc as (t & E & Ht). injection E as E1 E2 E3.
      unfold parts in Hpart. apply in_map_iff in Hpart as (pg & <- & Hpg).
      cbn [Ids.part_text Ids.part_source Ids.part_page] in *.
      apply load_pdf_from_spec in Hpg as (k & x & Hk & Hn & Hx & Hs).
      split; [now symmetry|]. exists k, x.
      repeat split; [exact Hk | congruence | exact Hs|].
      rewrite <- Hx, <- E1. exact Ht.
Qed.

End PdfPages.

(** ** Batches *)

Section Batches.

Context {A : Type}.

Lemma batches_from_spec (size : nat) :
  (0 < size)%nat ->
  forall fuel (l : list A),
    (length l <= fuel)%nat ->
    concat (batches_from fuel size l) = l
    /\ Forall (fun b => (0 < length b <= size)%nat) (batches_from fuel size l).
Proof.
  intros Hsize. induction fuel as [|fuel IH]; intros l Hl.
  - destruct l; [split; [reflexivity | constructor] | simpl in Hl; lia].
  - destruct l as [|x l]; [split; [reflexivity | constructor]|].
    cbn [batches_from].
    destruct (IH (skipn size (x :: l))) as [Hc Hall].
    { rewrite length_skipn. cbn [length] in *. lia. }
    split.
    + cbn [concat]. rewrite Hc. apply firstn_skipn.
    + constructor; [|exact Hall].
      rewrite length_firstn. cbn [length]. lia.
Qed.

Lemma batches_spec (size : nat) (l : list A) :
  (0 < size)%nat ->
  concat (batches size l) = l
  /\ Forall (fun b => (0 < length b <= size)%nat) (batches size l).
Proof. intros H. now apply batches_from_spec. Qed.

End Batches.

(** ** Embedding and indexing the chunks *)

Section Indexing.

Lemma embedded_batches_app (a b : list event) :
  embedded_batches (a ++ b) = embedded_batches a ++ embedded_batches b.
Proof.
  induction a as [|[R c r|t] a IH]; simpl; [reflexivity | | exact IH].
  destruct c; simpl; now rewrite IH.
Qed.

Lemma uploaded_batches_app (a b : list event) :
  uploaded_batches (a ++ b) = uploaded_batches a ++ uploaded_batches b.
Proof.
  induction a as [|[R c r|t] a IH]; simpl; [reflexivity | | exact IH].
  destruct c; simpl; now rewrite IH.
Qed.

Abbreviation embed_body :=
  (fun (all_embeddings : list (list float)) (batch : list str) =>
     bind (invoke (embeddings_create_batch batch))
       (fun data => ret (all_embeddings ++ data))).

Abbreviation upload_body :=
  (fun (total_uploaded : Z) (batch : list document) =>
     bind (invoke (upload_documents batch))
       (fun result =>
          ret (total_uploaded
               + Z.of_nat (length (filter (fun r : bool => r) result))))).

(** One turn of a loop whose body is a single call. *)
Lemma for_fold_invoke_step {X R S : Type} (call_of : X -> call R)
    (g : S -> R -> S) (b : X) (bs : list X) (acc : S) (w : world)
    (h : list event) :
  for_fold (b :: bs) acc
    (fun a x => bind (invoke (call_of x)) (fun v => ret (g a v))) w h
  = match w _ h (call_of b) with
    | Returned v =>
        (fst (for_fold bs (g acc v)
                (fun a x => bind (invoke (call_of x)) (fun v => ret (g a v)))
                w (h ++ [Called (call_of b) (Returned v)])),
         Called (call_of b) (Returned v)
           :: snd (for_fold bs (g acc v)
                     (fun a x =>
                        bind (invoke (call_of x)) (fun v => ret (g a v)))
                     w (h ++ [Called (call_of b) (Returned v)])))
    | Raised e => (Raised e, [Called (call_of b) (Raised e)])
    end.
Proof.
  cbn [for_fold]. unfold bind at 1. unfold bind at 1. unfold invoke at 1.
  cbv zeta. destruct (w _ h (call_of b)) as [v|e]; [|reflexivity].
  cbn [ret app].
  destruct (for_fold bs (g acc v)
              (fun a x => bind (invoke (call_of x)) (fun v => ret (g a v)))
              w (h ++ [Called (call_of b) (Returned v)])) as [r evs].
  reflexivity.
Qed.

(** The embedding loop sends the batches in order and stops at the
    first failure; it uploads nothing. *)
Lemma embed_loop (bs : list (list str)) :
  forall acc w h,
    exists rest,
      embedded_batches (snd (for_fold bs acc embed_body w h)) ++ rest = bs
      /\ (forall v, fst (for_fold bs acc embed_body w h) = Returned v ->
          rest = [])
      /\ uploaded_batches (snd (for_fold bs acc embed_body w h)) = [].
Proof.
  induction bs as [|b bs IH]; intros acc w h.
  - exists []. simpl. auto.
  - pose proof (for_fold_invoke_step embeddings_create_batch
                  (fun a d => a ++ d) b bs acc w h) as E.
    cbv beta in E. rewrite E. clear E.
    destruct (w _ h (embeddings_create_batch b)) as [data|e].
    + destruct (IH (acc ++ data) w
                  (h ++ [Called (embeddings_create_batch b) (Returned data)]))
        as (rest & H1 & H2 & H3).
      exists rest. cbn [fst snd embedded_batches uploaded_batches app].
      rewrite H1. repeat split; [exact H2 | exact H3].
    + exists bs. cbn [fst snd]. simpl. repeat split. discriminate.
Qed.

(** The upload loop sends the batches in order and stops at the first
    failure. *)
Lemma upload_loop (bs : list (list document)) :
  forall acc w h,
    exists rest,
      uploaded_batches (snd (for_fold bs acc upload_body w h)) ++ rest = bs
      /\ (forall v, fst (for_fold bs acc upload_body w h) = Returned v ->
          rest = []).
Proof.
  induction bs as [|b bs IH]; intros acc w h.
  - exists []. simpl. auto.
  - pose proof (for_fold_invoke_step upload_documents
                  (fun a result =>
                     a + Z.of_nat (length (filter (fun r : bool => r) result)))
                  b bs acc w h) as E.
    cbv beta in E. rewrite E. clear E.
    destruct (w _ h (upload_documents b)) as [result|e].
    + destruct (IH (acc + Z.of_nat (length (filter (fun r : bool => r) result)))
                  w (h ++ [Called (upload_documents b) (Returned result)]))
        as (rest & H1 & H2).
      exists rest. cbn [fst snd uploaded_batches app].
      rewrite H1. split; [reflexivity | exact H2].
    + exists bs. cbn [fst snd]. simpl. split; [reflexivity | discriminate].
Qed.

(** The embedding loop returns only when no call failed; when it
    raises, the failed call is the last one and the exception is its
    own. *)
Lemma embed_loop_failure (bs : list (list str)) :
  forall acc w h,
    (forall v, fst (for_fold bs acc embed_body w h) = Returned v ->
       failures (snd (for_fold bs acc embed_body w h)) = [])
    /\ (forall e, fst (for_fold bs acc embed_body w h) = Raised e ->
        exists evs0 b rest,
          snd (for_fold bs acc embed_body w h)
          = evs0 ++ [Called (embeddings_create_batch b) (Raised e)]
          /\ failures evs0 = []
          /\ embedded_batches evs0 ++ b :: rest = bs).
Proof.
  induction bs as [|b bs IH]; intros acc w h.
  - split; [reflexivity | discriminate].
  - pose proof (for_fold_invoke_step embeddings_create_batch
                  (fun a d => a ++ d) b bs acc w h) as E.
    cbv beta in E. rewrite E. clear E.
    destruct (w _ h (embeddings_create_batch b)) as [data|e].
    + destruct (IH (acc ++ data) w
                  (h ++ [Called (embeddings_create_batch b) (Returned data)]))
        as [Hret Hraise].
      cbn [fst snd]. split.
      * intros v Hv. cbn [failures failure_of stream_failure].
        exact (Hret v Hv).
      * intros e He. destruct (Hraise e He) as (evs0 & b' & rest & E & Hf & Hb).
        exists (Called (embeddings_create_batch b) (Returned data) :: evs0),
          b', rest.
        rewrite E. split; [reflexivity|]. split; [exact Hf|].
        cbn [embedded_batches app]. now rewrite Hb.
    + cbn [fst snd]. split; [discriminate|].
      intros e' He'. injection He' as <-.
      now exists [], b, bs.
Qed.

(** X12: [get_embeddings_batch] sends every text to the Embedding
    Client once, in input order, in batches of 1 to 16 texts; when a
    call fails the texts after the failed batch are not sent.  It
    returns only when no call failed; when a call fails it raises the
    exception of that call, which is the last event: the texts before
    the failed batch were sent, the batch itself was refused and
    nothing was sent after it. *)
Theorem texts_embedded_in_batches (texts : list str) (w : world)
    (h : list event) :
  let run := get_embeddings_batch texts w h in
  exists unsent,
    concat (embedded_batches (snd run)) ++ unsent = texts
    /\ (forall v, fst run = Returned v -> unsent = [])
    /\ Forall (fun b => (0 < length b <= 16)%nat) (embedded_batches (snd run))
    /\ (forall v, fst run = Returned v -> failures (snd run) = [])
    /\ (forall e, fst run = Raised e ->
        exists evs0 b,
          snd run = evs0 ++ [Called (embeddings_create_batch b) (Raised e)]
          /\ failures evs0 = []
          /\ failures (snd run) = [e]
          /\ concat (embedded_batches evs0) ++ b ++ unsent = texts).
Proof.
  cbv zeta. unfold get_embeddings_batch.
  destruct (batches_spec 16 texts ltac:(lia)) as [Hc Hall].
  destruct (embed_loop (batches 16 texts) [] w h) as (rest & H1 & H2 & _).
  destruct (embed_loop_failure (batches 16 texts) [] w h) as [Hret Hraise].
  exists (concat rest). split; [|split; [|split; [|split]]].
  - rewrite <- concat_app, H1. exact Hc.
  - intros v Hv. now rewrite (H2 v Hv).
  - rewrite <- H1 in Hall. now apply Forall_app in Hall as [Hall _].
  - exact Hret.
  - intros e He. destruct (Hraise e He) as (evs0 & b & rest' & E & Hf & Hb).
    exists evs0, b. split; [exact E|]. split; [exact Hf|]. split.
    + rewrite E, failures_app, Hf. reflexivity.
    + rewrite E, embedded_batches_app in H1. cbn [embedded_batches] in H1.
      rewrite <- app_assoc in H1. cbn [app] in H1.
      rewrite <- Hb in H1. apply app_inv_head in H1.
      injection H1 as ->.
      rewrite <- Hc, <- Hb, concat_app. reflexivity.
Qed.

Lemma index_documents_run (c : Ids.chunk) (cs : list Ids.chunk)
    (w : world) (h : list event) :
  index_documents (c :: cs) w h
  = match get_embeddings_batch (map Ids.content (c :: cs)) w h with
    | (Returned embeddings, evs) =>
        let documents := map to_document (combine (c :: cs) embeddings) in
        (fst (for_fold (batches 1000 documents) 0 upload_body w (h ++ evs)),
         evs ++ snd (for_fold (batches 1000 documents) 0 upload_body w
                       (h ++ evs)))
    | (Raised e, evs) => (Raised e, evs)
    end.
Proof.
  unfold index_documents, bind at 1.
  destruct (get_embeddings_batch (map Ids.content (c :: cs)) w h)
    as [[embeddings|e] evs]; [|reflexivity].
  cbv zeta.
  destruct (for_fold
              (batches 1000 (map to_document (combine (c :: cs) embeddings)))
              0 upload_body w (h ++ evs)) as [r evs'].
  reflexivity.
Qed.

(** [zip] stops at the shorter list: the documents are the first chunks,
    as many as there are vectors. *)
Lemma documents_are_chunks (chunks : list Ids.chunk) :
  forall embeddings : list (list float),
    map document_fields (map to_document (combine chunks embeddings))
    = map chunk_fields (firstn (length embeddings) chunks).
Proof.
  induction chunks as [|c cs IH]; intros [|v vs]; try reflexivity.
  cbn [combine map length firstn]. now rewrite IH.
Qed.

(** X13: the documents [index_documents] uploads are chunks of its
    argument with their id, content, source, page and ordinal, in input
    order and none twice, in batches of 1 to 1000: what it uploads is a
    prefix of the chunks. *)
Theorem uploaded_documents_are_chunks (chunks : list Ids.chunk) (w : world)
    (h : list event) :
  let run := index_documents chunks w h in
  exists not_uploaded,
    map document_fields (concat (uploaded_batches (snd run))) ++ not_uploaded
    = map chunk_fields chunks
    /\ Forall (fun b => (0 < length b <= 1000)%nat)
         (uploaded_batches (snd run)).
Proof.
  cbv zeta. destruct chunks as [|c cs].
  { exists []. split; [reflexivity | constructor]. }
  rewrite index_documents_run. unfold get_embeddings_batch.
  destruct (embed_loop (batches 16 (map Ids.content (c :: cs))) [] w h)
    as (_ & _ & _ & Hnone).
  destruct (for_fold (batches 16 (map Ids.content (c :: cs))) [] embed_body
              w h) as [[embeddings|e] evs]; cbn [snd] in Hnone.
  - cbv zeta. cbn [snd]. rewrite uploaded_batches_app, Hnone. cbn [app].
    set (documents := map to_document (combine (c :: cs) embeddings)).
    destruct (batches_spec 1000 documents ltac:(lia)) as [Hc Hall].
    destruct (upload_loop (batches 1000 documents) 0 w (h ++ evs))
      as (rest & H1 & _).
    exists (map document_fields (concat rest)
            ++ map chunk_fields (skipn (length embeddings) (c :: cs))).
    split.
    + rewrite app_assoc, <- map_app, <- concat_app, H1, Hc.
      unfold documents. rewrite documents_are_chunks, <- map_app.
      now rewrite firstn_skipn.
    + rewrite <- H1 in Hall. now apply Forall_app in Hall as [Hall _].
  - cbn [snd]. rewrite Hnone. exists (map chunk_fields (c :: cs)).
    split; [reflexivity | constructor].
Qed.

Lemma embed_loop_answers (w : world) (bs : list (list str)) :
  one_vector_per_text w ->
  forall acc h,
    exists embeddings,
      fst (for_fold bs acc embed_body w h) = Returned embeddings
      /\ length embeddings = (length acc + length (concat bs))%nat.
Proof.
  intros Hw. induction bs as [|b bs IH]; intros acc h.
  - exists acc. simpl. split; [reflexivity | lia].
  - pose proof (for_fold_invoke_step embeddings_create_batch
                  (fun a d => a ++ d) b bs acc w h) as E.
    cbv beta in E. rewrite E. clear E.
    destruct (Hw h b) as (data & -> & Hlen).
    destruct (IH (acc ++ data)
                (h ++ [Called (embeddings_create_batch b) (Returned data)]))
      as (embeddings & H1 & H2).
    exists embeddings. cbn [fst]. split; [exact H1|].
    rewrite H2, !length_app. cbn [concat]. rewrite length_app. lia.
Qed.

Lemma upload_loop_counts (w : world) (bs : list (list document)) :
  uploads_succeed w ->
  forall acc h,
    fst (for_fold bs acc upload_body w h)
    = Returned (acc + Z.of_nat (length (concat bs))).
Proof.
  intros Hw. induction bs as [|b bs IH]; intros acc h.
  - simpl. f_equal. lia.
  - pose proof (for_fold_invoke_step upload_documents
                  (fun a result =>
                     a + Z.of_nat (length (filter (fun r : bool => r) result)))
                  b bs acc w h) as E.
    cbv beta in E. rewrite E. clear E.
    rewrite (Hw h b). cbn [fst]. rewrite IH. f_equal.
    assert (Hall : forall l : list document,
              filter (fun r : bool => r) (map (fun _ => true) l)
              = map (fun _ => true) l).
    { induction l as [|d l IHl]; [reflexivity|]. simpl. now rewrite IHl. }
    rewrite Hall, length_map. cbn [concat]. rewrite length_app. lia.
Qed.

(** X14: when the Embedding Client answers each batch with one vector
    per text and the Index Store accepts every document,
    [index_documents] returns the number of chunks and has uploaded each
    chunk exactly once, in order. *)
Theorem all_chunks_indexed (chunks : list Ids.chunk) (w : world)
    (h : list event) :
  one_vector_per_text w -> uploads_succeed w ->
  exists evs,
    index_documents chunks w h = (Returned (Z.of_nat (length chunks)), evs)
    /\ map document_fields (concat (uploaded_batches evs))
       = map chunk_fields chunks.
Proof.
  intros Hembed Hupload. destruct chunks as [|c cs].
  { exists []. split; reflexivity. }
  rewrite index_documents_run. unfold get_embeddings_batch.
  destruct (embed_loop_answers w (batches 16 (map Ids.content (c :: cs)))
              Hembed [] h) as (embeddings & Hfst & Hlen).
  destruct (embed_loop (batches 16 (map Ids.content (c :: cs))) [] w h)
    as (_ & _ & _ & Hnone).
  destruct (for_fold (batches 16 (map Ids.content (c :: cs))) [] embed_body
              w h) as [r evs]; cbn [fst snd] in Hfst, Hnone. subst r.
  cbv zeta. set (documents := map to_document (combine (c :: cs) embeddings)).
  destruct (batches_spec 1000 documents ltac:(lia)) as [Hc _].
  destruct (upload_loop (batches 1000 documents) 0 w (h ++ evs))
    as (rest & H1 & H2).
  pose proof (upload_loop_counts w (batches 1000 documents) Hupload 0
                (h ++ evs)) as Hcount.
  rewrite (H2 _ Hcount), app_nil_r in H1.
  destruct (batches_spec 16 (map Ids.content (c :: cs)) ltac:(lia))
    as [Htexts _].
  rewrite Htexts, length_map in Hlen. cbn [length Nat.add] in Hlen.
  assert (Hdocs : map document_fields documents = map chunk_fields (c :: cs)).
  { unfold documents. rewrite documents_are_chunks, Hlen.
    f_equal. exact (firstn_all (c :: cs)). }
  eexists. split.
  - rewrite Hcount, Hc. do 2 f_equal.
    rewrite <- (length_map document_fields), Hdocs, length_map. reflexivity.
  - rewrite uploaded_batches_app, Hnone. cbn [app]. now rewrite H1, Hc.
Qed.

End Indexing.

Lemma all_chunks_indexed_witness :
  let chunks :=
    [{| Ids.id := lit "0a"; Ids.content := lit "One."; Ids.source := lit "a.txt";
        Ids.page := 0; Ids.chunk_index := 0 |};
     {| Ids.id := lit "0b"; Ids.content := lit "Two."; Ids.source := lit "a.txt";
        Ids.page := 0; Ids.chunk_index := 1 |}] in
  exists evs,
    index_documents chunks empty_index [] = (Returned 2, evs)
    /\ map document_fields (concat (uploaded_batches evs))
       = map chunk_fields chunks.
Proof.
  intros chunks. apply (all_chunks_indexed chunks empty_index []).
  - intros h input. eexists. split; [reflexivity | apply length_map].
  - intros h batch. reflexivity.
Defined.

(** ** Stopping at a failure *)

Section Aborting.

Lemma aborts_ret {A : Type} (a : A) : aborts (ret a).
Proof. intros w h e evs H. discriminate H. Qed.

Lemma aborts_invoke {R : Type} (c : call R) : aborts (invoke c).
Proof.
  intros w h e evs H. unfold invoke in H. injection H as H <-.
  exists [], R, c. now rewrite H.
Qed.

Lemma aborts_bind {A B : Type} (m : op A) (f : A -> op B) :
  aborts m -> (forall a, aborts (f a)) -> aborts (bind m f).
Proof.
  intros Hm Hf w h e evs H. unfold bind in H.
  destruct (m w h) as [[a|e'] evs1] eqn:Em.
  - destruct (f a w (h ++ evs1)) as [r evs2] eqn:Ef.
    injection H as -> <-.
    destruct (Hf a _ _ _ _ Ef) as (evs0 & R & c & ->).
    exists (evs1 ++ evs0), R, c. now rewrite app_assoc.
  - injection H as -> <-. exact (Hm _ _ _ _ Em).
Qed.

Lemma aborts_for_fold {A S : Type} (l : list A) (body : S -> A -> op S) :
  (forall acc x, aborts (body acc x)) ->
  forall acc, aborts (for_fold l acc body).
Proof.
  intros Hbody. induction l as [|x r IH]; intros acc; simpl.
  - apply aborts_ret.
  - apply aborts_bind; [apply Hbody | exact IH].
Qed.

Create HintDb aborting.

#[local] Hint Resolve aborts_ret aborts_invoke : aborting.
#[local] Hint Extern 2 (aborts (bind _ _)) =>
  apply aborts_bind; [|intros] : aborting.
#[local] Hint Extern 2 (aborts (for_fold _ _ _)) =>
  apply aborts_for_fold; intros : aborting.

Lemma aborts_search (q : str) (k : Z) (f : option str) : aborts (search q k f).
Proof. unfold search, get_embedding. auto with aborting. Qed.

(** X15: when [get_embeddings_batch], [search], [chat_completion],
    [index_documents], [delete_file], [query] or [search_only] raises,
    the failed call is the last thing it did: no service is called and
    nothing else happens after a failure. *)
Theorem failed_call_is_last :
  (forall texts, aborts (get_embeddings_batch texts))
  /\ (forall q k f, aborts (search q k f))
  /\ (forall q c p, aborts (chat_completion q c p))
  /\ (forall chunks, aborts (index_documents chunks))
  /\ (forall name, aborts (delete_file name))
  /\ (forall self q k, aborts (query self q k))
  /\ (forall self q k, aborts (search_only self q k)).
Proof.
  repeat split.
  - intros texts. unfold get_embeddings_batch. auto with aborting.
  - apply aborts_search.
  - intros q c p. unfold chat_completion. auto with aborting.
  - intros [|c cs]; unfold index_documents; [apply aborts_ret|].
    apply aborts_bind; [unfold get_embeddings_batch|intros];
      auto with aborting.
  - intros name. unfold delete_file, get_container_client.
    apply aborts_bind; [|auto with aborting].
    apply aborts_bind; [auto with aborting|].
    intros []; simpl; auto with aborting.
  - intros self q k. unfold query.
    apply aborts_bind; [apply aborts_search|].
    intros [|r rs]; [apply aborts_ret|].
    unfold chat_completion. auto with aborting.
  - intros self q k. apply aborts_search.
Qed.

End Aborting.

(** ** Queries that find something *)

Section WithResults.

Variables (w : world) (h : list event).
Variables (self : RAGPipeline) (q : str) (top_k_arg : option Z).
Variables (r : search_result) (rs : list search_result).
Variable evs : list event.

Hypothesis search_finds :
  search q (chosen_top_k self top_k_arg) None w h = (Returned (r :: rs), evs).

(** X16: when the search step returns results, [query] makes exactly
    one call to the Generation Client, after the search, with the
    question and the context built from all results in order; it
    returns the completion as the answer and the results as sources, or
    raises the failure of that call. *)
Theorem query_with_results :
  let completion :=
    chat_completions_create chat_system_prompt
      (user_message q
         (join context_separator (map context_part (r :: rs)))) in
  let reply := w _ (h ++ evs) completion in
  query self q top_k_arg w h
  = (match reply with
     | Returned a =>
         Returned {| question := q; answer := a; sources := r :: rs |}
     | Raised e => Raised e
     end,
     evs ++ [Called completion reply])
  /\ generation_calls (evs ++ [Called completion reply])
     = [Called completion reply].
Proof.
  cbv zeta. split.
  - unfold query, bind at 1. rewrite search_finds.
    unfold chat_completion, bind, invoke.
    destruct (w _ (h ++ evs) _); reflexivity.
  - pose proof (search_events q (chosen_top_k self top_k_arg) None w h)
      as [Hg _].
    rewrite search_finds in Hg. cbn [snd] in Hg.
    now rewrite generation_calls_app, Hg.
Qed.

End WithResults.

Lemma query_with_results_witness :
  let one_hit : world :=
    fun R h c =>
      match c in call T return outcome T with
      | search_client_search _ _ _ _ _ =>
          Returned [{| hit_id := lit "0a"; hit_content := lit "ML learns.";
                       hit_source := lit "ml.txt"; hit_page := None;
                       hit_score := 1 |}]
      | c' => empty_index _ h c'
      end in
  exists completion evs,
    query {| top_k := 5 |} (lit "What is ML?") None one_hit []
    = (Returned {| question := lit "What is ML?";
                   answer := lit "made up";
                   sources := [{| result_id := lit "0a";
                                  result_content := lit "ML learns.";
                                  result_source := lit "ml.txt";
                                  result_page := 0;
                                  result_score := 1 |}] |},
       evs ++ [Called completion (Returned (lit "made up"))])
    /\ generation_calls (evs ++ [Called completion (Returned (lit "made up"))])
       = [Called completion (Returned (lit "made up"))].
Proof.
  intros one_hit. do 2 eexists.
  exact (query_with_results one_hit [] {| top_k := 5 |} (lit "What is ML?")
           None _ _ _ eq_refl).
Defined.

(** ** Streaming the answer *)

Section Streaming.

Lemma for_each_yields (chunks : list stream_chunk) :
  forall w h,
    for_each chunks yield_content w h
    = (Returned tt, map Yielded (tokens_of chunks)).
Proof.
  induction chunks as [|x r IH]; intros w h; [reflexivity|].
  cbn [for_each]. unfold bind.
  assert (Hx : exists evs,
             yield_content x w h = (Returned tt, evs)
             /\ map Yielded (tokens_of (x :: r))
                = evs ++ map Yielded (tokens_of r)).
  { unfold yield_content, tokens_of. cbn [flat_map].
    destruct (choices x) as [|[content|] ?];
      try (eexists; split; reflexivity).
    destruct (truthy content); eexists; split; reflexivity. }
  destruct Hx as (evs & -> & ->). now rewrite IH.
Qed.

Lemma yielded_tokens (tokens : list str) :
  yielded (map Yielded tokens) = tokens.
Proof. induction tokens as [|t r IH]; simpl; [reflexivity | now rewrite IH]. Qed.

Lemma chat_completion_stream_run (question context : str) (w : world)
    (h : list event) :
  let c := chat_completions_stream stream_system_prompt
             (user_message question context) in
  chat_completion_stream question context None w h
  = match w _ h c with
    | Returned (chunks, failure) =>
        (match failure with
         | Some e => Raised e
         | None => Returned tt
         end,
         Called c (Returned (chunks, failure))
           :: map Yielded (tokens_of chunks))
    | Raised e => (Raised e, [Called c (Raised e)])
    end.
Proof.
  cbv zeta. unfold chat_completion_stream, bind at 1, invoke at 1.
  cbv zeta. destruct (w _ h _) as [[chunks failure]|e]; [|reflexivity].
  cbn [fst snd]. unfold bind. rewrite for_each_yields.
  destruct failure; simpl; now rewrite app_nil_r.
Qed.

(** X17: [chat_completion_stream] makes one streamed call and yields
    the tokens of the chunks that arrive, in arrival order, skipping
    chunks without choices or with empty content; a failure that ends
    the stream is raised after the tokens received before it have been
    yielded. *)
Theorem stream_tokens_in_arrival_order (question context : str) (w : world)
    (h : list event) (chunks : list stream_chunk) (failure : option exn) :
  w _ h (chat_completions_stream stream_system_prompt
           (user_message question context))
    = Returned (chunks, failure) ->
  exists evs,
    chat_completion_stream question context None w h
    = (match failure with
       | Some e => Raised e
       | None => Returned tt
       end, evs)
    /\ yielded evs = tokens_of chunks
    /\ length (generation_calls evs) = 1%nat.
Proof.
  intros Hw. pose proof (chat_completion_stream_run question context w h) as E.
  cbv zeta in E. rewrite Hw in E. eexists. split; [exact E|].
  cbn [yielded generation_calls filter is_generation_call].
  split; [apply yielded_tokens|].
  assert (Hnone : forall tokens,
            filter is_generation_call (map Yielded tokens) = []).
  { induction tokens as [|t r IH]; [reflexivity | exact IH]. }
  now rewrite Hnone.
Qed.

(** X18: when the search step returns results, [query_stream] yields
    exactly the tokens of the streamed completion, in arrival order, and
    raises the failure that ends the stream, if any. *)
Theorem query_stream_with_results (w : world) (h : list event)
    (self : RAGPipeline) (q : str) (top_k_arg : option Z)
    (r : search_result) (rs : list search_result) (evs : list event)
    (chunks : list stream_chunk) (failure : option exn) :
  search q (chosen_top_k self top_k_arg) None w h
    = (Returned (r :: rs), evs) ->
  w _ (h ++ evs)
    (chat_completions_stream stream_system_prompt
       (user_message q
          (join context_separator (map context_part_stream (r :: rs)))))
    = Returned (chunks, failure) ->
  exists evs',
    query_stream self q top_k_arg w h
    = (match failure with
       | Some e => Raised e
       | None => Returned tt
       end, evs')
    /\ yielded evs' = tokens_of chunks.
Proof.
  intros Hs Hw. unfold query_stream, bind. rewrite Hs.
  pose proof (chat_completion_stream_run q
                (join context_separator (map context_part_stream (r :: rs)))
                w (h ++ evs)) as E.
  cbv zeta in E. rewrite Hw in E. rewrite E.
  eexists. split; [reflexivity|].
  pose proof (search_events q (chosen_top_k self top_k_arg) None w h)
    as [_ Hy].
  rewrite Hs in Hy. cbn [snd] in Hy.
  rewrite yielded_app, Hy. cbn [app yielded]. apply yielded_tokens.
Qed.

End Streaming.

Lemma stream_tokens_in_arrival_order_witness :
  exists evs,
    chat_completion_stream (lit "What is ML?") (lit "ML learns.") None
      empty_index []
    = (Returned tt, evs)
    /\ yielded evs = tokens_of [{| choices := [Some (lit "made up")] |}]
    /\ length (generation_calls evs) = 1%nat.
Proof.
  apply (stream_tokens_in_arrival_order (lit "What is ML?") (lit "ML learns.")
           empty_index [] [{| choices := [Some (lit "made up")] |}] None).
  reflexivity.
Defined.

Lemma query_stream_with_results_witness :
  let one_hit : world :=
    fun R h c =>
      match c in call T return outcome T with
      | search_client_search _ _ _ _ _ =>
          Returned [{| hit_id := lit "0a"; hit_content := lit "ML learns.";
                       hit_source := lit "ml.txt"; hit_page := None;
                       hit_score := 1 |}]
      | c' => empty_index _ h c'
      end in
  exists evs',
    query_stream {| top_k := 5 |} (lit "What is ML?") None one_hit []
    = (Returned tt, evs')
    /\ yielded evs' = tokens_of [{| choices := [Some (lit "made up")] |}].
Proof.
  intros one_hit.
  apply (query_stream_with_results one_hit [] {| top_k := 5 |}
           (lit "What is ML?") None _ _ _
           [{| choices := [Some (lit "made up")] |}] None eq_refl eq_refl).
Defined.

(** ** Missing settings *)

Section Settings.

Import Config.

Lemma append_if_missing_in (missing : list str) (setting name x : str) :
  In x (append_if_missing missing setting name)
  <-> In x missing \/ (x = name /\ setting = []).
Proof.
  unfold append_if_missing. destruct setting as [|c s]; simpl.
  - rewrite in_app_iff. simpl. intuition.
  - intuition discriminate.
Qed.

(** X20: [validate] reports a setting exactly when it is empty, and it
    reports only the two endpoints, the two keys and the connection
    string, never a deployment, the API version, the index or the
    container name; it returns the empty list exactly when those five
    are all set. *)
Theorem validate_reports_empty_settings (self : AppConfig) :
  (forall x,
      In x (validate self) <->
      (x = lit "AZURE_OPENAI_ENDPOINT" /\ openai_endpoint (openai self) = [])
      \/ (x = lit "AZURE_OPENAI_KEY" /\ openai_key (openai self) = [])
      \/ (x = lit "AZURE_SEARCH_ENDPOINT"
          /\ search_endpoint (Config.search self) = [])
      \/ (x = lit "AZURE_SEARCH_KEY" /\ search_key (Config.search self) = [])
      \/ (x = lit "AZURE_STORAGE_CONNECTION_STRING"
          /\ connection_string (storage self) = []))
  /\ (validate self = [] <->
      openai_endpoint (openai self) <> [] /\ openai_key (openai self) <> []
      /\ search_endpoint (Config.search self) <> []
      /\ search_key (Config.search self) <> []
      /\ connection_string (storage self) <> []).
Proof.
  assert (Hin : forall x,
      In x (validate self) <->
      (x = lit "AZURE_OPENAI_ENDPOINT" /\ openai_endpoint (openai self) = [])
      \/ (x = lit "AZURE_OPENAI_KEY" /\ openai_key (openai self) = [])
      \/ (x = lit "AZURE_SEARCH_ENDPOINT"
          /\ search_endpoint (Config.search self) = [])
      \/ (x = lit "AZURE_SEARCH_KEY" /\ search_key (Config.search self) = [])
      \/ (x = lit "AZURE_STORAGE_CONNECTION_STRING"
          /\ connection_string (storage self) = [])).
  { intros x. unfold validate. cbv zeta.
    rewrite !append_if_missing_in. simpl. tauto. }
  split; [exact Hin|]. split.
  - intros E. rewrite E in Hin.
    repeat split; intros H; [apply (Hin (lit "AZURE_OPENAI_ENDPOINT"))
                            |apply (Hin (lit "AZURE_OPENAI_KEY"))
                            |apply (Hin (lit "AZURE_SEARCH_ENDPOINT"))
                            |apply (Hin (lit "AZURE_SEARCH_KEY"))
                            |apply (Hin (lit "AZURE_STORAGE_CONNECTION_STRING"))];
      tauto.
  - intros (H1 & H2 & H3 & H4 & H5).
    destruct (validate self) as [|x l] eqn:E; [reflexivity|].
    pose proof (proj1 (Hin x) (or_introl eq_refl)) as Hx. tauto.
Qed.

End Settings.

(** ** Documents by suffix *)

Section BySuffix.

Import Loader.

Variable md5_hexdigest : str -> str.
Variable fs : file_system.
Variables (name : str) (chunk_size chunk_overlap : Z).

Lemma str_eqb_refl (a : str) : str_eqb a a = true.
Proof. unfold str_eqb. destruct (list_eq_dec ascii_dec a a); congruence. Qed.

Lemma str_eqb_neq (a b : str) : a <> b -> str_eqb a b = false.
Proof. unfold str_eqb. destruct (list_eq_dec ascii_dec a b); congruence. Qed.

Lemma single_part_chunks (text : str) :
  map (fun c => (Ids.content c, Ids.source c, Ids.page c))
    (Ids.process_parts md5_hexdigest
       [{| Ids.part_text := text; Ids.part_source := name;
           Ids.part_page := 0 |}] chunk_size chunk_overlap)
  = map (fun t => (t, name, 0)) (chunk_text text chunk_size chunk_overlap).
Proof.
  pose proof (process_part_fold md5_hexdigest chunk_size chunk_overlap
                [{| Ids.part_text := text; Ids.part_source := name;
                    Ids.part_page := 0 |}] [] 0 eq_refl eq_refl)
    as [_ H].
  cbv zeta in H. cbn [map app flat_map Ids.part_text Ids.part_source
                      Ids.part_page] in H.
  rewrite app_nil_r in H. exact H.
Qed.

(** X21: [process_document] chunks a [.txt], [.md] or [.markdown] file
    as one text and a [.docx] file as its non-blank paragraphs joined by
    blank lines, every chunk carrying the file name and page 0; any
    other suffix but [.pdf] gives no chunks and no error. *)
Theorem process_document_by_suffix (suffix : str) :
  (In suffix [lit ".txt"; lit ".md"; lit ".markdown"] ->
   map (fun c => (Ids.content c, Ids.source c, Ids.page c))
     (process_document md5_hexdigest fs name suffix chunk_size chunk_overlap)
   = map (fun t => (t, name, 0))
       (chunk_text (read_text fs name) chunk_size chunk_overlap))
  /\ (suffix = lit ".docx" ->
      map (fun c => (Ids.content c, Ids.source c, Ids.page c))
        (process_document md5_hexdigest fs name suffix
           chunk_size chunk_overlap)
      = map (fun t => (t, name, 0))
          (chunk_text
             (join nn (filter (fun t => truthy (strip t))
                         (docx_paragraphs fs name)))
             chunk_size chunk_overlap))
  /\ (~ In suffix [lit ".pdf"; lit ".docx"; lit ".txt"; lit ".md";
                   lit ".markdown"] ->
      process_document md5_hexdigest fs name suffix chunk_size chunk_overlap
      = []).
Proof.
  repeat split.
  - intros Hin. rewrite process_document_parts.
    assert (E : load_document fs name suffix
                = [{| Ids.part_text := read_text fs name;
                      Ids.part_source := name; Ids.part_page := 0 |}]).
    { destruct Hin as [<-|[<-|[<-|[]]]]; reflexivity. }
    rewrite E. apply single_part_chunks.
  - intros ->. rewrite process_document_parts. apply single_part_chunks.
  - intros Hnot. unfold process_document, load_document.
    rewrite !str_eqb_neq; [reflexivity | | | | |];
      intros E; apply Hnot; rewrite E; simpl; tauto.
Qed.

End BySuffix.
